(** * SafeRoute crime-risk scoring engine: a shallow embedding

    The scoring algorithm of the repository (harm / recency / time-of-day
    weighting, the piecewise-linear risk function, route segmentation and
    route scoring, the monthly aggregation fold) and the risk-class helpers
    of the web frontend, embedded as Rocq functions.  Of the frontend the
    file also embeds the route drawing of the map page, the average of
    the dashboard, and the API client with its token store and the auth
    context, as functions on an explicit world.

    Number model.  Python [float] and JavaScript [number] values are
    modelled by rationals [Q]: [+], [-], [*] and [/] are exact, comparisons
    are the rational ones, and results are compared with [==] ([Qeq]).
    Python [int] is [Z].  A Python exception is an explicit [Raise]. *)

From Stdlib Require Import QArith Qminmax Qabs Qround Lqa.
From stdpp Require Import gmap strings list fin_maps pretty sorting.

Open Scope Q_scope.

(** ** Exceptions *)

Inductive PyError : Set :=
  | KeyError
  | IndexError
  | ZeroDivisionError.

Inductive result (A : Type) : Type :=
  | Ok (a : A)
  | Raise (e : PyError).

Arguments Ok {A} a.
Arguments Raise {A} e.

#[global] Instance result_ret : MRet result := fun A a => Ok a.

#[global] Instance result_bind : MBind result := fun A B k r =>
  match r with
  | Ok a => k a
  | Raise e => Raise e
  end.

(** [d[k]] on a Python dict. *)
Definition getitem {V} (d : gmap string V) (k : string) : result V :=
  match d !! k with
  | Some v => Ok v
  | None => Raise KeyError
  end.

(** The comparison [x >= y], as a decision. *)
Definition Qge_dec (x y : Q) : {y <= x} + {x < y} :=
  match Qlt_le_dec x y with
  | left Hlt => right Hlt
  | right Hle => left Hle
  end.

(** ** Scoring primitives *)

Module Scoring.

(** [RECENCY_WEIGHTS], the dict literal inside [get_recency_weight]. *)
Definition RECENCY_WEIGHTS : gmap Z Q :=
  list_to_map
    [ (0%Z, 1.00); (1%Z, 0.95); (2%Z, 0.90); (3%Z, 0.85); (4%Z, 0.75);
      (5%Z, 0.70); (6%Z, 0.65); (7%Z, 0.60); (8%Z, 0.55); (9%Z, 0.50);
      (10%Z, 0.45); (11%Z, 0.40); (12%Z, 0.35) ].

(** [RECENCY_WEIGHTS.get(months_ago, 0.30)] *)
Definition get_recency_weight (months_ago : Z) : Q :=
  default 0.30 (RECENCY_WEIGHTS !! months_ago).

(** [RISK_THRESHOLDS]: a dict with five fixed keys. *)
Record risk_thresholds : Set := {
  very_low : Q;
  low : Q;
  moderate : Q;
  high : Q;
  very_high : Q
}.

Definition RISK_THRESHOLDS : risk_thresholds :=
  {| very_low := 5.0; low := 20.0; moderate := 50.0;
     high := 100.0; very_high := 200.0 |}.

(** [calculate_risk_score]: the if / elif chain, branch by branch. *)
Definition calculate_risk_score (weighted_count : Q) : Q :=
  if Qeq_dec weighted_count 0 then 0.0
  else if Qlt_le_dec weighted_count (very_low RISK_THRESHOLDS) then
    0.2 * weighted_count / very_low RISK_THRESHOLDS
  else if Qlt_le_dec weighted_count (low RISK_THRESHOLDS) then
    let progress := (weighted_count - 5.0) / (20.0 - 5.0) in
    0.2 + 0.2 * progress
  else if Qlt_le_dec weighted_count (moderate RISK_THRESHOLDS) then
    let progress := (weighted_count - 20.0) / (50.0 - 20.0) in
    0.4 + 0.2 * progress
  else if Qlt_le_dec weighted_count (high RISK_THRESHOLDS) then
    let progress := (weighted_count - 50.0) / (100.0 - 50.0) in
    0.6 + 0.2 * progress
  else if Qlt_le_dec weighted_count (very_high RISK_THRESHOLDS) then
    let progress := (weighted_count - 100.0) / (200.0 - 100.0) in
    0.8 + 0.15 * progress
  else
    let excess := Qmin (weighted_count - 200.0) 200.0 in
    0.95 + 0.05 * (excess / 200.0).

(** Python's [round(x, 1)] in the rational model: the nearest multiple of
    one tenth, an exact tie going to the even one. *)
Definition round_half_even (x : Q) : Z :=
  let f := Qfloor x in
  let r := x - inject_Z f in
  if Qlt_le_dec r (1 # 2) then f
  else if Qlt_le_dec (1 # 2) r then (f + 1)%Z
  else if Z.even f then f else (f + 1)%Z.

Definition round1 (x : Q) : Q := inject_Z (round_half_even (x * 10)) / 10.

(** Step 3.3, safety score conversion. *)
Definition safety_score (risk_score : Q) : Q :=
  round1 ((1.0 - risk_score) * 100).

End Scoring.

(** ** Data model *)

(** A month as the first-of-month [date]: year and month number. *)
Record date : Set := { year : Z; month_no : Z }.

(** A vertex [(lon, lat)] and the [coords] of a [LineString] or polygon. *)
Definition point : Set := (Q * Q)%type.
Definition LineString : Set := list point.

(** [SafetyCell], with the fields the scoring code reads and writes. *)
Record SafetyCell : Type := {
  cell_id : string;
  geom : list point;
  month : date;
  crime_count_total : Z;
  crime_count_weighted : Q;
  stats : gmap string Z
}.

(** One incident of [month_crimes], after H3 cell assignment (step 1.1):
    the cell index, the boundary polygon of that cell, and the category
    with its harm weight. *)
Record CrimeIncident : Type := {
  h3_index : string;
  h3_boundary : list point;
  category : string;
  harm_weight : Q
}.

(** [RouteSegment] *)
Record RouteSegment : Set := {
  segment_index : Z;
  start_point : point;
  end_point : point;
  risk_score : Q;
  cell_count : Z
}.

(** One value of [cell_aggregates] (safety snapshot). *)
Record CellAggregate : Type := {
  total_crimes : Z;
  total_weighted : Q;
  months : list string;
  agg_stats : gmap string Z;
  geometry : list point
}.

(** ** Phase 1: monthly aggregation *)

Module Aggregation.

(** [month.strftime('%Y%m')] needs decimal digits of the year and month. *)
Definition digit (n : Z) : string :=
  String (Ascii.ascii_of_nat (48 + Z.to_nat (n mod 10))) EmptyString.

Definition strftime_Ym (d : date) : string :=
  let y := year d in
  let m := month_no d in
  digit (y / 1000) +:+ digit (y / 100) +:+ digit (y / 10) +:+ digit y
  +:+ digit (m / 10) +:+ digit m.

(** [f"{h3_index}_{month.strftime('%Y%m')}"] *)
Definition make_cell_id (h3 : string) (m : date) : string :=
  h3 +:+ "_" +:+ strftime_Ym m.

(** The bucket a first incident lands in: counts at zero, empty stats. *)
Definition new_cell (id : string) (g : list point) (m : date) : SafetyCell :=
  {| cell_id := id; geom := g; month := m;
     crime_count_total := 0; crime_count_weighted := 0.0; stats := ∅ |}.

(** [stats[category] += 1]; a category not yet counted starts at 0. *)
Definition stats_incr (cat : string) (st : gmap string Z) : gmap string Z :=
  <[cat := (default 0%Z (st !! cat) + 1)%Z]> st.

(** The three updates of the loop body on one bucket:
    [crime_count_total += 1], [crime_count_weighted += harm_weight],
    [stats[category] += 1]. *)
Definition add_incident (c : SafetyCell) (cat : string) (hw : Q) : SafetyCell :=
  {| cell_id := cell_id c; geom := geom c; month := month c;
     crime_count_total := crime_count_total c + 1;
     crime_count_weighted := crime_count_weighted c + hw;
     stats := stats_incr cat (stats c) |}.

(** One iteration of [for incident in month_crimes]. *)
Definition aggregate_step (m : date) (cells : gmap string SafetyCell)
    (incident : CrimeIncident) : gmap string SafetyCell :=
  let id := make_cell_id (h3_index incident) m in
  let c := default (new_cell id (h3_boundary incident) m) (cells !! id) in
  <[id := add_incident c (category incident) (harm_weight incident)]> cells.

Definition aggregate_month (m : date) (month_crimes : list CrimeIncident)
    (cells : gmap string SafetyCell) : gmap string SafetyCell :=
  foldl (aggregate_step m) cells month_crimes.

(** [sum(stats.values())] *)
Definition stats_sum (st : gmap string Z) : Z :=
  map_fold (fun _ n acc => (acc + n)%Z) 0%Z st.

(** [sum(harm_weight(c) * stats[c] for c in stats)] for a harm-weight
    table [hw]. *)
Definition stats_harm_sum (hw : string -> Q) (st : gmap string Z) : Q :=
  map_fold (fun c n acc => acc + hw c * inject_Z n) 0 st.

(** The two conservation equalities of a bucket, for the harm-weight table
    [hw]. *)
Definition conserved (hw : string -> Q) (c : SafetyCell) : Prop :=
  crime_count_total c = stats_sum (stats c) /\
  crime_count_weighted c == stats_harm_sum hw (stats c).

End Aggregation.

(** ** Phase 2: temporal weighting *)

Module Weighting.

(** The per-category row of [CRIME_TIME_WEIGHTS]. *)
Definition time_row (night evening day morning : Q) : gmap string Q :=
  list_to_map
    [ ("night"%string, night); ("evening"%string, evening);
      ("day"%string, day); ("morning"%string, morning) ].

(** [CRIME_TIME_WEIGHTS]: the two rows the source spells out, on top of
    the rows of the remaining categories ([other_categories]). *)
Definition CRIME_TIME_WEIGHTS (other_categories : gmap string (gmap string Q))
    : gmap string (gmap string Q) :=
  <["violent-crime"%string := time_row 2.5 2.0 1.0 0.8]>
    (<["burglary"%string := time_row 2.0 1.5 1.2 1.0]> other_categories).

(** Modelled from the spec: [calculate_months_ago] is called by
    [calculate_segment_risk] but not defined in the sources; the spec has
    "months-ago is computed against the current month at query time", an
    integer count of months between two first-of-month dates. *)
Definition calculate_months_ago (cell_month current_month : date) : Z :=
  (year current_month - year cell_month) * 12
  + (month_no current_month - month_no cell_month).

(** [if time_of_day:] on an [Optional[str]]: [None] and the empty string
    are falsy. *)
Definition truthy (time_of_day : option string) : option string :=
  match time_of_day with
  | Some EmptyString => None
  | other => other
  end.

(** One term [count * CRIME_TIME_WEIGHTS[cat][time_of_day]] added to the
    running sum. *)
Definition time_weight_term (tw : gmap string (gmap string Q)) (tod : string)
    (cat : string) (count : Z) (acc : result Q) : result Q :=
  a ← acc;
  row ← getitem tw cat;
  mult ← getitem row tod;
  Ok (a + inject_Z count * mult).

(** [sum(count * CRIME_TIME_WEIGHTS[cat][time_of_day]
         for cat, count in cell.stats.items())] *)
Definition time_weighted_count (tw : gmap string (gmap string Q))
    (tod : string) (st : gmap string Z) : result Q :=
  map_fold (time_weight_term tw tod) (Ok 0) st.

(** Equality of results up to [==] on the value. *)
Definition res_eq (r1 r2 : result Q) : Prop :=
  match r1, r2 with
  | Ok a, Ok b => a == b
  | Raise e1, Raise e2 => e1 = e2
  | _, _ => False
  end.

End Weighting.

(** ** Phase 4: route scoring *)

Module Route.

Import Scoring Weighting.

(** Square root on the rational model: truncated to 15 decimal places
    (exact whenever the root has at most 15 decimals). *)
Definition Qsqrt (x : Q) : Q :=
  inject_Z (Z.sqrt (Qfloor (x * inject_Z (10 ^ 30)))) / inject_Z (10 ^ 15).

Definition distance (p q : point) : Q :=
  let dx := fst q - fst p in
  let dy := snd q - snd p in
  Qsqrt (dx * dx + dy * dy).

(** shapely's [LineString.length]: the planar length of the coordinate
    sequence, in the units of the coordinates (degrees for lon / lat). *)
Fixpoint LineString_length (coords : LineString) : Q :=
  match coords with
  | p :: (q :: _) as rest => distance p q + LineString_length rest
  | _ => 0
  end.

(** The default of [max_segment_length]. *)
Definition max_segment_length_default : Q := 0.001.

Section Segmentation.

(** The length measure read by [segment_line.length]. *)
Variable length_of : LineString -> Q.
Variable max_segment_length : Q.

(** One iteration of [for point in route_line.coords[1:]], on the pair
    [(segments, current_segment)]. *)
Definition segment_step (st : list LineString * list point) (pt : point)
    : list LineString * list point :=
  let current_segment := st.2 ++ [pt] in
  let segment_line : LineString := current_segment in
  if Qge_dec (length_of segment_line) max_segment_length
  then (st.1 ++ [segment_line], [pt])
  else (st.1, current_segment).

(** The loop, from [segments = []], [current_segment = [coords[0]]]. *)
Definition segment_walk (first : point) (rest : list point)
    : list LineString * list point :=
  foldl segment_step ([], [first]) rest.

(** [segment_route]: only [segments] is returned. *)
Definition segment_route_with (route_line : LineString)
    : result (list LineString) :=
  match route_line with
  | [] => Raise IndexError
  | first :: rest => Ok (segment_walk first rest).1
  end.

(** Every tested prefix of a run, up to [upto] vertices, stayed below the
    threshold. *)
Definition below (upto : nat) (run : list point) : Prop :=
  forall k, (2 <= k <= upto)%nat ->
            length_of (take k run) < max_segment_length.

(** What the loop maintains, for the vertices [seen] after the first:
    the runs split [seen] in order, each run starts where the previous
    one ended, emitted runs reached the threshold at their last vertex
    and not before, and the open run has not reached it. *)
Record walk_inv (first : point) (seen : list point)
    (st : list LineString * list point) : Prop := {
  inv_open : st.2 <> [];
  inv_split : concat (tail <$> st.1) ++ tail st.2 = seen;
  inv_heads : head <$> (st.1 ++ [st.2]) = Some first :: (last <$> st.1);
  inv_reached : Forall (fun s => max_segment_length <= length_of s) st.1;
  inv_minimal : Forall (fun s => below (length s - 1) s) st.1;
  inv_size : Forall (fun s => (2 <= length s)%nat) st.1;
  inv_pending : below (length st.2) st.2
}.

End Segmentation.

Definition segment_route (route_line : LineString) (max_segment_length : Q)
    : result (list LineString) :=
  segment_route_with LineString_length max_segment_length route_line.

(** [find_intersecting_cells]: shapely's [buffer] and [intersects] are
    taken as given. *)
Definition buffer_degrees (buffer_meters : Q) : Q := buffer_meters / 111000.0.

Section Intersection.

Variable Geometry : Type.
Variable buffer : LineString -> Q -> Geometry.
Variable intersects : Geometry -> list point -> bool.

Definition find_intersecting_cells (route_segment : LineString)
    (cells : list SafetyCell) (buffer_meters : Q) : list SafetyCell :=
  let buffered_route := buffer route_segment (buffer_degrees buffer_meters) in
  filter (fun cell => intersects buffered_route (geom cell) = true) cells.

End Intersection.

(** [weighted_count] of one cell in [calculate_segment_risk]: the stored
    harm-weighted count, replaced by the time-weighted sum when a time of
    day is given. *)
Definition cell_weighted_count (tw : gmap string (gmap string Q))
    (time_of_day : option string) (cell : SafetyCell) : result Q :=
  match truthy time_of_day with
  | Some tod => time_weighted_count tw tod (stats cell)
  | None => Ok (crime_count_weighted cell)
  end.

(** One iteration of [for cell in cells]. *)
Definition segment_risk_step (tw : gmap string (gmap string Q))
    (current_month : date) (time_of_day : option string)
    (acc : result Q) (cell : SafetyCell) : result Q :=
  total_weighted_risk ← acc;
  let months_ago := calculate_months_ago (month cell) current_month in
  let recency_mult := get_recency_weight months_ago in
  weighted_count ← cell_weighted_count tw time_of_day cell;
  Ok (total_weighted_risk + weighted_count * recency_mult).

(** [calculate_segment_risk] *)
Definition calculate_segment_risk (tw : gmap string (gmap string Q))
    (cells : list SafetyCell) (current_month : date)
    (time_of_day : option string) : result Q :=
  total_weighted_risk ←
    foldl (segment_risk_step tw current_month time_of_day) (Ok 0.0) cells;
  match cells with
  | [] => Ok 0.0
  | _ => Ok (total_weighted_risk / inject_Z (Z.of_nat (length cells)))
  end.

(** The contribution of one cell to [total_weighted_risk]. *)
Definition cell_term (tw : gmap string (gmap string Q)) (cur : date)
    (tod : option string) (cell : SafetyCell) : result Q :=
  w ← cell_weighted_count tw tod cell;
  Ok (w * get_recency_weight (calculate_months_ago (month cell) cur)).

(** Cell by cell, the second cell contributes at least as much. *)
Definition term_le (tw : gmap string (gmap string Q)) (cur : date)
    (tod : option string) (c c' : SafetyCell) : Prop :=
  forall t t', cell_term tw cur tod c = Ok t ->
               cell_term tw cur tod c' = Ok t' -> t <= t'.

(** [sum(seg.risk_score for seg in segments)] *)
Definition sum_risk (segments : list RouteSegment) : Q :=
  foldl (fun acc seg => acc + risk_score seg) 0 segments.

(** [score_route] *)
Definition score_route (segments : list RouteSegment) : result Q :=
  match segments with
  | [] => Raise ZeroDivisionError
  | _ =>
    let avg_segment_risk :=
      sum_risk segments / inject_Z (Z.of_nat (length segments)) in
    let risk_score := calculate_risk_score avg_segment_risk in
    let safety_score := (1.0 - risk_score) * 100 in
    Ok safety_score
  end.

(** Hexagon scoring: the body of the loop over [cell_aggregates.items()],
    giving [(risk_score, safety_score)] per [h3_index]. *)
Definition hexagon_score (agg : CellAggregate) : Q * Q :=
  let weighted_count := total_weighted agg in
  let risk_score := calculate_risk_score weighted_count in
  let safety_score := (1.0 - risk_score) * 100 in
  (risk_score, safety_score).

Definition score_hexagons (cell_aggregates : gmap string CellAggregate)
    : gmap string (Q * Q) :=
  hexagon_score <$> cell_aggregates.

End Route.

(** ** Frontend risk classes *)

Module Frontend.

(** [getRiskClass] of the route-history and dashboard pages. *)
Definition getRiskClass (score : Q) : string :=
  if Qge_dec score 70 then "low"
  else if Qge_dec score 40 then "medium"
  else "high".

(** [getRiskColor] of the route-history page. *)
Definition getRiskColor (score : Q) : string :=
  if Qge_dec score 70 then "bg-risk-low/20 text-risk-low border-risk-low"
  else if Qge_dec score 40
  then "bg-risk-medium/20 text-risk-medium border-risk-medium"
  else "bg-risk-high/20 text-risk-high border-risk-high".

(** The heatmap [style] callback: [(color, fillOpacity)] from
    [feature?.properties.safety_score || 0]. *)
Definition heatmap_style (safety_score : option Q) : string * Q :=
  let safetyScore := default 0 safety_score in
  if Qge_dec safetyScore 75 then ("#16a34a"%string, 0.25)
  else if Qge_dec safetyScore 50 then ("#ca8a04"%string, 0.35)
  else ("#dc2626"%string, 0.5).

(** The colour of a route line on the map page. *)
Definition route_color (safety_score : Q) : string :=
  if Qlt_le_dec safety_score 50 then "#ef4444"
  else if Qlt_le_dec safety_score 75 then "#eab308"
  else "#22c55e".

End Frontend.

(** ** Sample data *)

Module Samples.

Import Aggregation.

Definition sample_month : date := {| year := 2025; month_no := 10 |}.

(** A bucket of the current month with two burglaries. *)
Definition sample_cell : SafetyCell :=
  {| cell_id := "8a195da49a7ffff_202510"; geom := [];
     month := sample_month;
     crime_count_total := 2; crime_count_weighted := 4.0;
     stats := {[ "burglary"%string := 2%Z ]} |}.

(** A bucket with one violent-crime event. *)
Definition violent_cell : SafetyCell :=
  {| cell_id := "8a195da49a7ffff_202510"; geom := [];
     month := sample_month;
     crime_count_total := 1; crime_count_weighted := 3.0;
     stats := {[ "violent-crime"%string := 1%Z ]} |}.

(** Harm weights of the two categories the scoring document works with;
    every other category at 1. *)
Definition sample_harm_weight (cat : string) : Q :=
  if decide (cat = "violent-crime"%string) then 3.0
  else if decide (cat = "burglary"%string) then 2.0
  else 1.0.

Definition sample_crimes : list CrimeIncident :=
  [ {| h3_index := "8a195da49a7ffff"; h3_boundary := [];
       category := "violent-crime"; harm_weight := 3.0 |};
    {| h3_index := "8a195da49a7ffff"; h3_boundary := [];
       category := "burglary"; harm_weight := 2.0 |};
    {| h3_index := "8a195da49b0ffff"; h3_boundary := [];
       category := "violent-crime"; harm_weight := 3.0 |} ].

Definition sample_segment : RouteSegment :=
  {| segment_index := 0; start_point := (-1.4044, 50.9097);
     end_point := (-1.4044, 50.9107); risk_score := 4.0;
     cell_count := 1 |}.

Definition sample_aggregate : CellAggregate :=
  {| total_crimes := 2; total_weighted := 4.0;
     months := ["2025-10-01"%string];
     agg_stats := {[ "burglary"%string := 2%Z ]}; geometry := [] |}.

(** The route of example 2 of the scoring document: 20 cells, mean
    weighted count 9.6. *)
Definition example_segment : RouteSegment :=
  {| segment_index := 0; start_point := (-1.4044, 50.9097);
     end_point := (-1.4044, 50.9107); risk_score := 9.6;
     cell_count := 20 |}.

(** Two vertices 0.0005 degrees apart. *)
Definition short_route : LineString :=
  [(-1.4044, 50.9097); (-1.4044, 50.9102)].

(** Two vertices 0.00099 degrees apart along a meridian. *)
Definition meridian_route : LineString :=
  [(-1.4044, 50.9097); (-1.4044, 50.91069)].

(** Three vertices: 0.0011 degrees, then 0.0004 more. *)
Definition tailed_route : LineString :=
  [(-1.4044, 50.9097); (-1.4044, 50.9108); (-1.4044, 50.9112)].

End Samples.

(** ** Auxiliary notions for the scoring code *)

Module ScoringAux.

Import Aggregation.

(** Every category of the histogram has a multiplier for [tod] in the
    time-weight table. *)
Definition covered (tw : gmap string (gmap string Q)) (tod : string)
    (st : gmap string Z) : Prop :=
  map_Forall (fun cat _ => is_Some (tw !! cat ≫= (.!! tod))) st.

(** The events counted over the whole grid:
    [sum(c.crime_count_total for c in cells.values())]. *)
Definition grid_total (cells : gmap string SafetyCell) : Z :=
  map_fold (fun _ c acc => (acc + crime_count_total c)%Z) 0%Z cells.

(** The segments a walk that closes a run at every vertex produces: one
    per pair of consecutive vertices. *)
Fixpoint edges (first : point) (rest : list point) : list LineString :=
  match rest with
  | [] => []
  | pt :: rest' => [first; pt] :: edges pt rest'
  end.

End ScoringAux.

(** ** Map page: drawing the routes *)

Module MapPage.

Import Frontend.

(** [SafeRoute] of the API client, with the fields the map page reads:
    [geometry.coordinates] holds [(lng, lat)] pairs, [stats?.segments]
    may be missing. *)
Record SafeRoute : Type := {
  route_id : string;
  safety_score : Q;
  coordinates : list point;
  segments : option (list RouteSegment)
}.

(** What [renderRoutes] adds to the map. *)
Inductive layer : Type :=
  | GreyRoute (routeId : string) (geometry : list point)
  | SegmentLine (latlngs : list point) (color : string)
  | RouteLine (routeId : string) (geometry : list point) (color : string).

(** [route.route_id || `route-${index}`] *)
Definition route_id_of (route : SafeRoute) (index : nat) : string :=
  match route_id route with
  | EmptyString => "route-" +:+ pretty index
  | id => id
  end.

(** The colour of one segment of the selected route, from
    [segment.risk_score || 0]. *)
Definition segment_color (riskScore : Q) : string :=
  if Qlt_le_dec 15 riskScore then "#ef4444"
  else if Qlt_le_dec 10 riskScore then "#f97316"
  else if Qlt_le_dec 5 riskScore then "#eab308"
  else "#22c55e".

(** [array.slice(start, stop)] for indices that are not negative. *)
Definition js_slice {A} (l : list A) (start stop : Z) : list A :=
  take (Z.to_nat (stop - start)) (drop (Z.to_nat start) l).

(** [Math.ceil(coordinates.length / totalSegments)] *)
Definition coordsPerSegment (n totalSegments : nat) : Z :=
  Qceiling (inject_Z (Z.of_nat n) / inject_Z (Z.of_nat totalSegments)).

(** [coordinates.slice(startIdx, endIdx + 1)], each pair swapped to
    [(lat, lng)]. *)
Definition segmentCoords (coordinates : list point) (totalSegments : nat)
    (segIdx : nat) : list point :=
  let coordsPerSegment := coordsPerSegment (length coordinates) totalSegments in
  let startIdx := (Z.of_nat segIdx * coordsPerSegment)%Z in
  let endIdx :=
    Z.min ((Z.of_nat segIdx + 1) * coordsPerSegment)
          (Z.of_nat (length coordinates)) in
  (fun coord => (snd coord, fst coord))
    <$> js_slice coordinates startIdx (endIdx + 1).

(** The body of [sortedSegments.forEach]: a polyline is added only when
    the slice has more than one vertex. *)
Definition segment_layer (coordinates : list point) (totalSegments : nat)
    (segIdx : nat) (segment : RouteSegment) : option layer :=
  let riskScore := risk_score segment in
  let segmentColor := segment_color riskScore in
  let coords := segmentCoords coordinates totalSegments segIdx in
  if decide (1 < length coords)%nat then Some (SegmentLine coords segmentColor)
  else None.

(** The order of the comparator
    [(a, b) => (a.segment_index || 0) - (b.segment_index || 0)]. *)
Definition by_index (a b : RouteSegment) : Prop :=
  (segment_index a <= segment_index b)%Z.

#[global] Instance by_index_dec : RelDecision by_index :=
  fun a b => decide (segment_index a <= segment_index b)%Z.

(** [[...segments].sort(...)]: the sort is stable, a segment goes in
    front of the first one whose index is not smaller. *)
Fixpoint insert_by_index (s : RouteSegment) (sorted : list RouteSegment)
    : list RouteSegment :=
  match sorted with
  | [] => [s]
  | t :: rest =>
    if decide (by_index s t) then s :: t :: rest
    else t :: insert_by_index s rest
  end.

Definition sortedSegments (segs : list RouteSegment) : list RouteSegment :=
  foldr insert_by_index [] segs.

(** The layers of the selected route. *)
Definition selected_layers (route : SafeRoute) (routeId : string)
    : list layer :=
  let segs := default [] (segments route) in
  let coords := coordinates route in
  if decide (0 < length segs)%nat then
    if decide (0 < length coords)%nat then
      omap id (imap (segment_layer coords (length (sortedSegments segs)))
                    (sortedSegments segs))
    else [RouteLine routeId coords (route_color (safety_score route))]
  else [RouteLine routeId coords (route_color (safety_score route))].

(** [renderRoutes], the layers in the order they are pushed. *)
Definition renderRoutes (routes : list SafeRoute)
    (currentSelectedId : option string) : list layer :=
  mjoin
    (imap
       (fun index route =>
          let routeId := route_id_of route index in
          if decide (Some routeId = currentSelectedId)
          then selected_layers route routeId
          else [GreyRoute routeId (coordinates route)])
       routes).

(** [routes.find((r, idx) => (r.route_id || `route-${idx}`)
                             === selectedRouteId)], searching from index
    [idx]. *)
Fixpoint find_route (selectedRouteId : option string)
    (routes : list SafeRoute) (idx : nat) : option SafeRoute :=
  match routes with
  | [] => None
  | r :: rest =>
    if decide (Some (route_id_of r idx) = selectedRouteId) then Some r
    else find_route selectedRouteId rest (S idx)
  end.

Definition selectedRoute (routes : list SafeRoute)
    (selectedRouteId : option string) : option SafeRoute :=
  find_route selectedRouteId routes 0.

(** The state change of a successful [findSafeRoutes]: the routes are
    replaced, and the first one, if any, becomes the selected route. *)
Definition findSafeRoutes_state (routesData : list SafeRoute)
    (selectedRouteId : option string) : list SafeRoute * option string :=
  match routesData with
  | [] => (routesData, selectedRouteId)
  | r :: _ =>
    let firstRouteId :=
      match route_id r with EmptyString => "route-0"%string | id => id end in
    (routesData, Some firstRouteId)
  end.

End MapPage.

(** ** Dashboard *)

Module Dashboard.

(** [RouteHistoryItem], the field the average reads. *)
Record RouteHistoryItem : Type := {
  item_id : string;
  safety_score_best : Q
}.

(** [avgSafetyScore]: the mean of [safety_score_best || 0] over the
    history, 0 for an empty history. *)
Definition avgSafetyScore (history : list RouteHistoryItem) : Q :=
  if decide (0 < length history)%nat then
    foldl (fun acc item => acc + safety_score_best item) 0 history
    / inject_Z (Z.of_nat (length history))
  else 0.

End Dashboard.


(** ** The API client: tokens, [apiFetch] and the auth context

    [lib/api.ts] and [contexts/auth-context.tsx].  The code runs against
    a browser and a server; both are part of an explicit [World] that
    every function takes and returns.  The server is an oracle: the
    list of the outcomes of the coming [fetch] calls, so that a
    statement about every such list is a statement about every
    server. *)

Module Api.

(** [AuthTokens] *)
Record AuthTokens : Type := {
  access_token : string;
  refresh_token : string;
  token_type : string
}.

(** The [body] of a request, before [JSON.stringify]. *)
Inductive Body : Type :=
  | NoBody
  | RefreshBody (refresh_token : string)
  | PayloadBody (payload : string).

(** [RequestInit], with the fields the callers of [apiFetch] set. *)
Record RequestInit : Type := {
  method : option string;
  body : Body
}.

(** What [fetch] is called with: the url, the options and the headers
    that [apiFetch] has set, under the names the code gives them. *)
Record Request : Type := {
  url : string;
  init : RequestInit;
  headers : gmap string string
}.

Section Client.

(** The values that [response.json()] resolves to, and the reading
    of such a value at the declared type [AuthTokens]. *)
Context {Json : Type}.
Variable as_tokens : Json -> AuthTokens.

(** [Response]: [json] is [None] when [response.json()] rejects. *)
Record Response : Type := {
  status : Z;
  statusText : string;
  json : option Json
}.

(** [response.ok]: the status is in the range 200-299. *)
Definition ok (response : Response) : bool :=
  bool_decide (200 <= status response <= 299)%Z.

(** What the code throws: the [TypeError] of a failed [fetch], the
    [SyntaxError] of a rejected [response.json()], and [ApiError]. *)
Inductive JsError : Type :=
  | TypeError
  | SyntaxError
  | ApiError (status : Z) (statusText : string) (data : option Json).

(** The browser, the server and the state of the [AuthProvider]. *)
Record World : Type := {
  window : bool;
  localStorage : gmap string AuthTokens;
  network : list (option Response);
  requests : list Request;
  NEXT_PUBLIC_API_BASE_URL : option string;
  user : option Json
}.

Definition with_localStorage (f : gmap string AuthTokens ->
                                  gmap string AuthTokens)
    (w : World) : World :=
  {| window := window w; localStorage := f (localStorage w);
     network := network w; requests := requests w;
     NEXT_PUBLIC_API_BASE_URL := NEXT_PUBLIC_API_BASE_URL w;
     user := user w |}.

Definition with_user (u : option Json) (w : World) : World :=
  {| window := window w; localStorage := localStorage w;
     network := network w; requests := requests w;
     NEXT_PUBLIC_API_BASE_URL := NEXT_PUBLIC_API_BASE_URL w;
     user := u |}.

(** One [fetch]: the request is sent, the next outcome is consumed. *)
Definition sent (request : Request) (w : World) : World :=
  {| window := window w; localStorage := localStorage w;
     network := tail (network w); requests := requests w ++ [request];
     NEXT_PUBLIC_API_BASE_URL := NEXT_PUBLIC_API_BASE_URL w;
     user := user w |}.

(** A computation returns or throws, and leaves a world behind. *)
Inductive outcome (A : Type) : Type :=
  | Return (a : A)
  | Throw (e : JsError).

#[global] Arguments Return {A} a.
#[global] Arguments Throw {A} e.

Definition M (A : Type) : Type := World -> outcome A * World.

#[global] Instance M_ret : MRet M := fun A a w => (Return a, w).

#[global] Instance M_bind : MBind M := fun A B k m w =>
  match m w with
  | (Return a, w') => k a w'
  | (Throw e, w') => (Throw e, w')
  end.

Definition throw {A} (e : JsError) : M A := fun w => (Throw e, w).

(** [try { m } catch (error) { handler error }] *)
Definition try_catch {A} (m : M A) (handler : JsError -> M A) : M A :=
  fun w =>
    match m w with
    | (Return a, w') => (Return a, w')
    | (Throw e, w') => handler e w'
    end.

(** [process.env.NEXT_PUBLIC_API_BASE_URL ?? "http://localhost:8000"] *)
Definition API_BASE_URL (w : World) : string :=
  default "http://localhost:8000" (NEXT_PUBLIC_API_BASE_URL w).

Definition TOKEN_KEY : string := "saferoute_tokens".

(** [getTokens]: [null] on the server side and when nothing is stored;
    the stored text is kept as the tokens it parses to. *)
Definition getTokens : M (option AuthTokens) := fun w =>
  if window w then (Return (localStorage w !! TOKEN_KEY), w)
  else (Return None, w).

Definition setTokens (tokens : AuthTokens) : M unit := fun w =>
  if window w then (Return tt, with_localStorage <[TOKEN_KEY := tokens]> w)
  else (Return tt, w).

Definition clearTokens : M unit := fun w =>
  if window w then (Return tt, with_localStorage (delete TOKEN_KEY) w)
  else (Return tt, w).

(** [fetch]: resolves to the response the server gives, rejects when
    the request fails. *)
Definition fetch (request : Request) : M Response := fun w =>
  match network w with
  | Some response :: _ => (Return response, sent request w)
  | _ => (Throw TypeError, sent request w)
  end.

(** [response.json()] *)
Definition response_json (response : Response) : M Json :=
  match json response with
  | Some value => mret value
  | None => throw SyntaxError
  end.

(** [`Bearer ${tokens.access_token}`] *)
Definition bearer (tokens : AuthTokens) : string :=
  "Bearer " +:+ access_token tokens.

(** A non-empty string is truthy. *)
Definition nonempty (s : string) : bool :=
  match s with EmptyString => false | _ => true end.

(** [apiFetch].  It calls [refreshToken], which calls [apiFetch] back
    with [requiresAuth = false]; the function to call for the refresh is
    an argument here, and the two are tied together below.  No caller
    passes headers of its own, so [new Headers(options.headers)] starts
    empty. *)
Definition apiFetch_with (refreshToken : string -> M AuthTokens)
    (endpoint : string) (options : RequestInit) (requiresAuth : bool)
    : M Response :=
  fun w =>
  (let url := API_BASE_URL w +:+ endpoint in
   headers ←
     (if requiresAuth then
        tokens ← getTokens;
        match tokens with
        | Some tokens => mret (<["Authorization" := bearer tokens]> ∅)
        | None => mret ∅
        end
      else mret ∅);
   let headers := <["Content-Type" := "application/json"]> headers in
   response ← fetch {| url := url; init := options; headers := headers |};
   response ←
     (if bool_decide (status response = 401%Z) && requiresAuth then
        tokens ← getTokens;
        match tokens with
        | Some tokens =>
          if nonempty (refresh_token tokens) then
            try_catch
              (newTokens ← refreshToken (refresh_token tokens);
               _ ← setTokens newTokens;
               let headers :=
                 <["Authorization" := bearer newTokens]> headers in
               fetch {| url := url; init := options; headers := headers |})
              (fun error => _ ← clearTokens; throw error)
          else mret response
        | None => mret response
        end
      else mret response);
   if ok response then mret response
   else throw (ApiError (status response) (statusText response)
                        (json response))) w.

(** [refreshToken]: the inner [apiFetch] has [requiresAuth = false] and
    never asks for a refresh itself. *)
Definition refreshToken (refreshToken : string) : M AuthTokens :=
  response ←
    apiFetch_with (fun _ => throw TypeError) "/api/v1/auth/refresh"
      {| method := Some "POST"; body := RefreshBody refreshToken |} false;
  value ← response_json response;
  mret (as_tokens value).

Definition apiFetch : string -> RequestInit -> bool -> M Response :=
  apiFetch_with refreshToken.

Definition register (payload : string) : M AuthTokens :=
  response ←
    apiFetch "/api/v1/auth/register"
      {| method := Some "POST"; body := PayloadBody payload |} false;
  value ← response_json response;
  mret (as_tokens value).

Definition login (payload : string) : M AuthTokens :=
  response ←
    apiFetch "/api/v1/auth/login"
      {| method := Some "POST"; body := PayloadBody payload |} false;
  value ← response_json response;
  mret (as_tokens value).

Definition logout : M unit :=
  _ ← apiFetch "/api/v1/auth/logout"
        {| method := Some "POST"; body := NoBody |} true;
  mret tt.

Definition getCurrentUser : M Json :=
  response ←
    apiFetch "/api/v1/auth/me" {| method := None; body := NoBody |} true;
  response_json response.

(** [getSafeRoutes]: the request is authenticated only for a logged-in
    user. *)
Definition getSafeRoutes (payload : string) : M Json :=
  tokens ← getTokens;
  let requiresAuth := bool_decide (is_Some tokens) in
  response ←
    apiFetch "/api/v1/routes/safe"
      {| method := Some "POST"; body := PayloadBody payload |} requiresAuth;
  response_json response.

End Client.

#[global] Arguments Response : clear implicits.
#[global] Arguments JsError : clear implicits.
#[global] Arguments World : clear implicits.

End Api.

(** The functions of the [AuthProvider]. *)

Module AuthContext.

Import Api.

Section Provider.

Context {Json : Type}.
Variable as_tokens : Json -> AuthTokens.

Definition setUser (u : option Json) : M unit := fun w =>
  (Return tt, with_user u w).

Definition login (payload : string) : M unit :=
  tokens ← Api.login as_tokens payload;
  _ ← setTokens tokens;
  userData ← getCurrentUser as_tokens;
  setUser (Some userData).

Definition register (payload : string) : M unit :=
  tokens ← Api.register as_tokens payload;
  _ ← setTokens tokens;
  userData ← getCurrentUser as_tokens;
  setUser (Some userData).

(** [try { await apiLogout() } catch { ... } finally { clearTokens();
    setUser(null) }] *)
Definition logout : M unit :=
  _ ← try_catch (Api.logout as_tokens) (fun _ => mret tt);
  _ ← clearTokens;
  setUser None.

Definition refreshUser : M unit :=
  userData ← getCurrentUser as_tokens;
  setUser (Some userData).

End Provider.

End AuthContext.

(** ** Snapshot: the weighted total of a hexagon *)

Module Snapshot.

Import Scoring Weighting.

(** Modelled from the spec: one term of the time-weighted value of a
    monthly row in the snapshot, [stats[cat] * harm_weight[cat] *
    tod[cat][time_of_day]] (section 4.5, step 3, and step 1 of example 1
    of the scoring document: "5 x 3.0 (harm) x 2.5 (night)").  The code
    of the snapshot endpoint is not in the sources. *)
Definition w_cell_term (hw : string -> Q) (tw : gmap string (gmap string Q))
    (tod : string) (cat : string) (count : Z) (acc : result Q) : result Q :=
  a ← acc;
  row ← getitem tw cat;
  mult ← getitem row tod;
  Ok (a + inject_Z count * hw cat * mult).

(** Modelled from the spec: [w_cell] of section 4.5, step 3, the stored
    [crime_count_weighted] without a time of day, the time-weighted sum
    with one. *)
Definition w_cell (hw : string -> Q) (tw : gmap string (gmap string Q))
    (time_of_day : option string) (cell : SafetyCell) : result Q :=
  match truthy time_of_day with
  | Some tod => map_fold (w_cell_term hw tw tod) (Ok 0) (stats cell)
  | None => Ok (crime_count_weighted cell)
  end.

(** Modelled from the spec: one step of [w_group += w_cell *
    recency_weight(k)] over the monthly rows of one h3 index. *)
Definition w_group_step (hw : string -> Q)
    (tw : gmap string (gmap string Q)) (current_month : date)
    (time_of_day : option string) (acc : result Q) (cell : SafetyCell)
    : result Q :=
  w_group ← acc;
  w ← w_cell hw tw time_of_day cell;
  Ok (w_group
      + w * get_recency_weight
              (calculate_months_ago (month cell) current_month)).

(** Modelled from the spec: [w_group] of section 4.5, step 3, which the
    scoring document keeps as [total_weighted] ("Weighted + recency
    applied") and hands to hexagon scoring. *)
Definition w_group (hw : string -> Q) (tw : gmap string (gmap string Q))
    (current_month : date) (time_of_day : option string)
    (rows : list SafetyCell) : result Q :=
  foldl (w_group_step hw tw current_month time_of_day) (Ok 0) rows.

End Snapshot.

(** ** More sample data *)

Module Scenarios.

Import Samples MapPage Dashboard Api.

(** An aggregate whose weighted total is below zero. *)
Definition negative_aggregate : CellAggregate :=
  {| total_crimes := 0; total_weighted := -10;
     months := ["2025-10-01"%string];
     agg_stats := ∅; geometry := [] |}.

(** [sample_cell] with other stored counts, the histogram unchanged. *)
Definition restated_cell : SafetyCell :=
  {| cell_id := "8a195da49a7ffff_202510"; geom := [];
     month := sample_month;
     crime_count_total := 7; crime_count_weighted := 17.5;
     stats := {[ "burglary"%string := 2%Z ]} |}.

(** The three sample incidents, the first two swapped. *)
Definition swapped_crimes : list CrimeIncident :=
  [ {| h3_index := "8a195da49a7ffff"; h3_boundary := [];
       category := "burglary"; harm_weight := 2.0 |};
    {| h3_index := "8a195da49a7ffff"; h3_boundary := [];
       category := "violent-crime"; harm_weight := 3.0 |};
    {| h3_index := "8a195da49b0ffff"; h3_boundary := [];
       category := "violent-crime"; harm_weight := 3.0 |} ].

(** A second segment, with a risk in the red band of the map page. *)
Definition risky_segment : RouteSegment :=
  {| segment_index := 1; start_point := (-1.4044, 50.9108);
     end_point := (-1.4044, 50.9112); risk_score := 16.0;
     cell_count := 3 |}.

(** A route of three coordinates and two segments, as the API returns
    it, and the same route with its segments listed in reverse. *)
Definition sample_route : SafeRoute :=
  {| route_id := "fastest"; safety_score := 73.9;
     coordinates := tailed_route;
     segments := Some [sample_segment; risky_segment] |}.

Definition reversed_route : SafeRoute :=
  {| route_id := "fastest"; safety_score := 73.9;
     coordinates := tailed_route;
     segments := Some [risky_segment; sample_segment] |}.

Definition sample_history : list RouteHistoryItem :=
  [ {| item_id := "a"; safety_score_best := 80 |};
    {| item_id := "b"; safety_score_best := 60 |} ].

(** Tokens before and after a refresh. *)
Definition old_tokens : AuthTokens :=
  {| access_token := "old-access"; refresh_token := "old-refresh";
     token_type := "bearer" |}.

Definition fresh_tokens : AuthTokens :=
  {| access_token := "fresh-access"; refresh_token := "fresh-refresh";
     token_type := "bearer" |}.

(** Responses whose body, where there is one, is a pair of tokens. *)
Definition unauthorized : Response AuthTokens :=
  {| status := 401; statusText := "Unauthorized"; json := None |}.

Definition refreshed : Response AuthTokens :=
  {| status := 200; statusText := "OK"; json := Some fresh_tokens |}.

Definition no_content : Response AuthTokens :=
  {| status := 204; statusText := "No Content"; json := None |}.

Definition server_error : Response AuthTokens :=
  {| status := 500; statusText := "Internal Server Error";
     json := None |}.

(** A browser with [old_tokens] in the store, facing a server that
    answers with [outcomes]. *)
Definition logged_in (outcomes : list (option (Response AuthTokens)))
    : World AuthTokens :=
  {| window := true; localStorage := {[ TOKEN_KEY := old_tokens ]};
     network := outcomes; requests := [];
     NEXT_PUBLIC_API_BASE_URL := None; user := None |}.

(** The same browser with an empty store. *)
Definition logged_out (outcomes : list (option (Response AuthTokens)))
    : World AuthTokens :=
  {| window := true; localStorage := ∅;
     network := outcomes; requests := [];
     NEXT_PUBLIC_API_BASE_URL := None; user := None |}.

Definition settings_request : RequestInit :=
  {| method := None; body := NoBody |}.

(** The three monthly rows of the hexagon of example 1 of the scoring
    document: 5, 4 and 3 violent crimes and 3, 2 and 1 burglaries in the
    current month and the two months before, with the harm-weighted
    counts of [sample_harm_weight]. *)
Definition example_rows : list SafetyCell :=
  [ {| cell_id := "8a195da49a7ffff_202510"; geom := [];
       month := {| year := 2025; month_no := 10 |};
       crime_count_total := 8; crime_count_weighted := 21.0;
       stats := {[ "violent-crime"%string := 5%Z;
                   "burglary"%string := 3%Z ]} |};
    {| cell_id := "8a195da49a7ffff_202509"; geom := [];
       month := {| year := 2025; month_no := 9 |};
       crime_count_total := 6; crime_count_weighted := 16.0;
       stats := {[ "violent-crime"%string := 4%Z;
                   "burglary"%string := 2%Z ]} |};
    {| cell_id := "8a195da49a7ffff_202508"; geom := [];
       month := {| year := 2025; month_no := 8 |};
       crime_count_total := 4; crime_count_weighted := 11.0;
       stats := {[ "violent-crime"%string := 3%Z;
                   "burglary"%string := 1%Z ]} |} ].

(** The segment of a one-segment route that carries the segment risk
    [risk], and the aggregate of a hexagon whose weighted total is
    [total]. *)
Definition segment_with (risk : Q) : RouteSegment :=
  {| segment_index := 0; start_point := (-1.4044, 50.9097);
     end_point := (-1.4044, 50.9107); risk_score := risk;
     cell_count := 1 |}.

Definition aggregate_with (total : Q) : CellAggregate :=
  {| total_crimes := 18; total_weighted := total;
     months := ["2025-10-01"; "2025-09-01"; "2025-08-01"]%string;
     agg_stats := {[ "violent-crime"%string := 12%Z;
                     "burglary"%string := 6%Z ]};
     geometry := [] |}.

(** Two vertices 0.0011 degrees apart: one segment, no remainder. *)
Definition closed_route : LineString :=
  [(-1.4044, 50.9097); (-1.4044, 50.9108)].

End Scenarios.

(** * Properties *)

(** ** The risk function *)

Module ScoringFacts.

Import Scoring.

(** Arithmetic on the rational model: thresholds unfolded, divisions by
    literals turned into multiplications, then linear arithmetic. *)
Ltac qconst :=
  repeat match goal with
  | |- context [Qinv ?c] =>
      let v := eval vm_compute in (Qinv c) in
      progress change (Qinv c) with v
  | H : context [Qinv ?c] |- _ =>
      let v := eval vm_compute in (Qinv c) in
      progress change (Qinv c) with v in H
  end.

Ltac qarith :=
  cbn [very_low low moderate high very_high RISK_THRESHOLDS] in *;
  unfold Qdiv in *; qconst; lra.

(** Case analysis along the if / elif chain of [calculate_risk_score]. *)
Ltac risk_cases w :=
  unfold calculate_risk_score;
  destruct (Qeq_dec w 0);
  [| destruct (Qlt_le_dec w (very_low RISK_THRESHOLDS));
     [| destruct (Qlt_le_dec w (low RISK_THRESHOLDS));
        [| destruct (Qlt_le_dec w (moderate RISK_THRESHOLDS));
           [| destruct (Qlt_le_dec w (high RISK_THRESHOLDS));
              [| destruct (Qlt_le_dec w (very_high RISK_THRESHOLDS)) ]]]]];
  cbn zeta.

Lemma Qmin_cases (a b : Q) :
  (a <= b /\ Qmin a b == a) \/ (b <= a /\ Qmin a b == b).
Proof.
  destruct (Qlt_le_dec a b) as [H|H].
  - left. split; [lra | apply Q.min_l; lra].
  - right. split; [lra | apply Q.min_r; lra].
Qed.

(** The last branch, with the [min] resolved. *)
Lemma top_band (w : Q) :
  (w <= 400 /\ 0.95 + 0.05 * (Qmin (w - 200.0) 200.0 / 200.0)
               == 0.95 + 0.05 * ((w - 200) / 200)) \/
  (400 <= w /\ 0.95 + 0.05 * (Qmin (w - 200.0) 200.0 / 200.0) == 1).
Proof.
  destruct (Qmin_cases (w - 200.0) 200.0) as [[Hle E]|[Hle E]]; rewrite E.
  - left. split; qarith.
  - right. split; qarith.
Qed.

Ltac resolve_min :=
  repeat match goal with
  | |- context [Qmin (?w - 200.0) 200.0] =>
      let E := fresh "E" in
      destruct (top_band w) as [[? E]|[? E]]; rewrite E
  end.

Lemma risk_score_zero (w : Q) : w == 0 -> calculate_risk_score w == 0.
Proof. intros Hw. risk_cases w; qarith. Qed.

Lemma risk_score_band1 (w : Q) :
  0 < w -> w < 5 -> calculate_risk_score w == 0.2 * w / 5.
Proof. intros. risk_cases w; qarith. Qed.

Lemma risk_score_band2 (w : Q) :
  5 <= w -> w < 20 -> calculate_risk_score w == 0.2 + 0.2 * (w - 5) / 15.
Proof. intros. risk_cases w; qarith. Qed.

Lemma risk_score_band3 (w : Q) :
  20 <= w -> w < 50 -> calculate_risk_score w == 0.4 + 0.2 * (w - 20) / 30.
Proof. intros. risk_cases w; qarith. Qed.

Lemma risk_score_band4 (w : Q) :
  50 <= w -> w < 100 -> calculate_risk_score w == 0.6 + 0.2 * (w - 50) / 50.
Proof. intros. risk_cases w; qarith. Qed.

Lemma risk_score_band5 (w : Q) :
  100 <= w -> w < 200 ->
  calculate_risk_score w == 0.8 + 0.15 * (w - 100) / 100.
Proof. intros. risk_cases w; qarith. Qed.

Lemma risk_score_band6 (w : Q) :
  200 <= w ->
  calculate_risk_score w == 0.95 + 0.05 * Qmin (w - 200) 200 / 200.
Proof.
  intros Hw. risk_cases w; try qarith.
  destruct (top_band w) as [[H1 E]|[H1 E]]; rewrite E;
    destruct (Qmin_cases (w - 200) 200) as [[H2 E']|[H2 E']]; rewrite E';
    qarith.
Qed.

Lemma risk_score_cap (w : Q) : 400 <= w -> calculate_risk_score w == 1.
Proof.
  intros Hw. risk_cases w; try qarith.
  destruct (top_band w) as [[H1 E]|[H1 E]]; rewrite E; qarith.
Qed.

(** [calculate_risk_score] respects [==]. *)
#[global] Instance calculate_risk_score_proper :
  Proper (Qeq ==> Qeq) calculate_risk_score.
Proof.
  intros a b Hab.
  risk_cases a; risk_cases b; try qarith.
  destruct (top_band a) as [[Ha E]|[Ha E]]; rewrite E;
    destruct (top_band b) as [[Hb E']|[Hb E']]; rewrite E'; qarith.
Qed.

Lemma risk_score_monotone (a b : Q) :
  a <= b -> calculate_risk_score a <= calculate_risk_score b.
Proof.
  intros Hab.
  risk_cases a; risk_cases b; try qarith; resolve_min; qarith.
Qed.

End ScoringFacts.

(** ** The aggregation fold *)

Module AggregationFacts.

Import Aggregation.

#[local] Instance Qeq_preorder : PreOrder Qeq.
Proof. split; [intros x; reflexivity | intros x y z; apply Qeq_trans]. Qed.

Lemma stats_sum_insert_fresh (st : gmap string Z) (cat : string) (n : Z) :
  st !! cat = None -> stats_sum (<[cat := n]> st) = (stats_sum st + n)%Z.
Proof.
  intros Hfresh. unfold stats_sum.
  rewrite map_fold_insert_L; [reflexivity | | exact Hfresh].
  intros; lia.
Qed.

Lemma stats_sum_incr (st : gmap string Z) (cat : string) :
  stats_sum (stats_incr cat st) = (stats_sum st + 1)%Z.
Proof.
  unfold stats_incr.
  destruct (st !! cat) as [n|] eqn:Hcat; cbn [default from_option id].
  - rewrite <- insert_delete_eq.
    rewrite stats_sum_insert_fresh by apply lookup_delete_eq.
    rewrite <- (insert_delete_id st cat n Hcat) at 2.
    rewrite stats_sum_insert_fresh by apply lookup_delete_eq. lia.
  - rewrite stats_sum_insert_fresh by exact Hcat. reflexivity.
Qed.

Lemma stats_harm_sum_insert_fresh (hw : string -> Q) (st : gmap string Z)
    (cat : string) (n : Z) :
  st !! cat = None ->
  stats_harm_sum hw (<[cat := n]> st)
  == stats_harm_sum hw st + hw cat * inject_Z n.
Proof.
  intros Hfresh. unfold stats_harm_sum.
  apply (map_fold_insert Qeq (fun c k acc => acc + hw c * inject_Z k)
           0 cat n st); [| | exact Hfresh].
  - intros j z x y Hxy. rewrite Hxy. reflexivity.
  - intros. ring.
Qed.

Lemma stats_harm_sum_incr (hw : string -> Q) (st : gmap string Z)
    (cat : string) :
  stats_harm_sum hw (stats_incr cat st) == stats_harm_sum hw st + hw cat.
Proof.
  unfold stats_incr.
  destruct (st !! cat) as [n|] eqn:Hcat; cbn [default from_option id].
  - rewrite <- insert_delete_eq.
    rewrite stats_harm_sum_insert_fresh by apply lookup_delete_eq.
    rewrite <- (insert_delete_id st cat n Hcat) at 2.
    rewrite stats_harm_sum_insert_fresh by apply lookup_delete_eq.
    rewrite inject_Z_plus. ring.
  - rewrite stats_harm_sum_insert_fresh by exact Hcat.
    change (inject_Z (0 + 1)) with 1. ring.
Qed.

Lemma new_cell_conserved hw id g m : conserved hw (new_cell id g m).
Proof.
  split; cbn.
  - unfold stats_sum. rewrite map_fold_empty. reflexivity.
  - unfold stats_harm_sum. rewrite map_fold_empty. reflexivity.
Qed.

Lemma add_incident_conserved hw (c : SafetyCell) (cat : string) (w : Q) :
  w == hw cat -> conserved hw c -> conserved hw (add_incident c cat w).
Proof.
  intros Hw [Htot Hwt]. split; cbn.
  - rewrite stats_sum_incr, Htot. reflexivity.
  - rewrite stats_harm_sum_incr, Hwt, Hw.
    reflexivity.
Qed.

Lemma aggregate_step_conserved hw m (cells : gmap string SafetyCell) incident :
  harm_weight incident == hw (category incident) ->
  map_Forall (fun _ c => conserved hw c) cells ->
  map_Forall (fun _ c => conserved hw c) (aggregate_step m cells incident).
Proof.
  intros Hw Hall. unfold aggregate_step.
  apply map_Forall_insert_2; [| exact Hall].
  apply add_incident_conserved; [exact Hw |].
  destruct (cells !! make_cell_id (h3_index incident) m) as [c|] eqn:Hc;
    cbn [default from_option id].
  - exact (Hall _ _ Hc).
  - apply new_cell_conserved.
Qed.

Lemma aggregate_month_conserved hw m month_crimes :
  Forall (fun i => harm_weight i == hw (category i)) month_crimes ->
  forall cells : gmap string SafetyCell,
  map_Forall (fun _ c => conserved hw c) cells ->
  map_Forall (fun _ c => conserved hw c) (aggregate_month m month_crimes cells).
Proof.
  unfold aggregate_month.
  induction 1 as [|i rest Hi Hrest IH]; intros cells Hall; cbn [foldl].
  - exact Hall.
  - apply IH. apply aggregate_step_conserved; assumption.
Qed.

Lemma conserved_tolerance hw c :
  conserved hw c ->
  Qabs (crime_count_weighted c - stats_harm_sum hw (stats c)) < 0.000001.
Proof.
  intros [_ Hwt].
  assert (E : crime_count_weighted c - stats_harm_sum hw (stats c) == 0)
    by (rewrite Hwt; ring).
  rewrite E. reflexivity.
Qed.

End AggregationFacts.

(** ** Query-time weighting *)

Module WeightingFacts.

Import Scoring Aggregation Weighting.

#[local] Instance res_eq_preorder : PreOrder res_eq.
Proof.
  split.
  - intros [a|e]; cbn; reflexivity.
  - intros [a|e1] [b|e2] [c|e3]; cbn; try tauto; try congruence.
    apply Qeq_trans.
Qed.

Lemma time_weight_term_proper tw tod cat count :
  Proper (res_eq ==> res_eq) (time_weight_term tw tod cat count).
Proof.
  intros [a|e1] [b|e2] Hab; cbn in Hab; try tauto;
    unfold time_weight_term, getitem; cbn; try exact Hab.
  destruct (tw !! cat) as [row|]; cbn; [| reflexivity].
  destruct (row !! tod) as [m|]; cbn; [| reflexivity].
  rewrite Hab. reflexivity.
Qed.

Lemma time_weight_term_comm tw tod c1 n1 c2 n2 acc :
  res_eq (time_weight_term tw tod c1 n1 (time_weight_term tw tod c2 n2 acc))
         (time_weight_term tw tod c2 n2 (time_weight_term tw tod c1 n1 acc)).
Proof.
  destruct acc as [a|e]; unfold time_weight_term, getitem; cbn; [| reflexivity].
  destruct (tw !! c1) as [row1|]; cbn;
    destruct (tw !! c2) as [row2|]; cbn;
    try (destruct (row1 !! tod) as [m1|]; cbn);
    try (destruct (row2 !! tod) as [m2|]; cbn);
    try reflexivity.
  ring.
Qed.

Lemma time_weighted_count_insert tw tod (st : gmap string Z) cat n :
  st !! cat = None ->
  res_eq (time_weighted_count tw tod (<[cat := n]> st))
         (time_weight_term tw tod cat n (time_weighted_count tw tod st)).
Proof.
  intros Hfresh. unfold time_weighted_count.
  apply (map_fold_insert res_eq (time_weight_term tw tod) (Ok 0) cat n st);
    [| | exact Hfresh].
  - intros j z. apply time_weight_term_proper.
  - intros. apply time_weight_term_comm.
Qed.

(** What one more counted event of category [cat] does to the
    time-weighted count: it adds the multiplier of [cat]. *)
Lemma time_weighted_count_incr tw tod (st : gmap string Z) cat q q' :
  time_weighted_count tw tod st = Ok q ->
  time_weighted_count tw tod (stats_incr cat st) = Ok q' ->
  exists row mult,
    tw !! cat = Some row /\ row !! tod = Some mult /\ q' == q + mult.
Proof.
  intros Hq Hq'. unfold stats_incr in Hq'.
  destruct (st !! cat) as [n|] eqn:Hcat; cbn [default from_option id] in Hq'.
  - pose proof (time_weighted_count_insert tw tod (delete cat st) cat (n + 1)
                  (lookup_delete_eq st cat)) as Hnew.
    pose proof (time_weighted_count_insert tw tod (delete cat st) cat n
                  (lookup_delete_eq st cat)) as Hold.
    rewrite insert_delete_eq in Hnew.
    rewrite insert_delete_id in Hold by exact Hcat.
    rewrite Hq in Hold. rewrite Hq' in Hnew.
    unfold time_weight_term, getitem in Hold, Hnew.
    destruct (time_weighted_count tw tod (delete cat st)) as [q0|e];
      cbn -[Qeq] in Hold, Hnew; [| tauto].
    destruct (tw !! cat) as [row|] eqn:Hrow; cbn -[Qeq] in Hold, Hnew;
      [| tauto].
    destruct (row !! tod) as [m|] eqn:Hm; cbn -[Qeq] in Hold, Hnew; [| tauto].
    change (q' == q0 + inject_Z (n + 1) * m) in Hnew.
    change (q == q0 + inject_Z n * m) in Hold.
    exists row, m. split; [reflexivity | split; [exact Hm |]].
    rewrite Hnew, Hold, inject_Z_plus. ring.
  - pose proof (time_weighted_count_insert tw tod st cat (0 + 1) Hcat) as Hnew.
    rewrite Hq, Hq' in Hnew. unfold time_weight_term, getitem in Hnew.
    cbn -[Qeq] in Hnew.
    destruct (tw !! cat) as [row|] eqn:Hrow; cbn -[Qeq] in Hnew; [| tauto].
    destruct (row !! tod) as [m|] eqn:Hm; cbn -[Qeq] in Hnew; [| tauto].
    change (q' == q + inject_Z (0 + 1) * m) in Hnew.
    exists row, m. split; [reflexivity | split; [exact Hm |]].
    rewrite Hnew. change (inject_Z (0 + 1)) with 1. ring.
Qed.

Lemma recency_weight_outside (k : Z) :
  (k < 0 \/ 12 < k)%Z -> RECENCY_WEIGHTS !! k = None.
Proof.
  intros Hk. unfold RECENCY_WEIGHTS.
  apply not_elem_of_list_to_map_1. cbn.
  rewrite !elem_of_cons, elem_of_nil. lia.
Qed.

Lemma recency_weight_positive (k : Z) : 0 < get_recency_weight k.
Proof.
  unfold get_recency_weight.
  destruct (decide (k < 0 \/ 12 < k)%Z) as [Hout|Hin].
  - rewrite recency_weight_outside by exact Hout. reflexivity.
  - assert (Hk : (k = 0 \/ k = 1 \/ k = 2 \/ k = 3 \/ k = 4 \/ k = 5 \/ k = 6
                  \/ k = 7 \/ k = 8 \/ k = 9 \/ k = 10 \/ k = 11 \/ k = 12)%Z)
      by lia.
    repeat (destruct Hk as [->|Hk]; [reflexivity |]).
    subst k. reflexivity.
Qed.

End WeightingFacts.

(** ** Segment risk and route score *)

Module RouteFacts.

Import Scoring Aggregation Weighting Route.
Import ScoringFacts AggregationFacts WeightingFacts.

Lemma segment_risk_fold_raise tw cur tod e cells :
  foldl (segment_risk_step tw cur tod) (Raise e) cells = Raise e.
Proof. induction cells as [|c cells IH]; [reflexivity | exact IH]. Qed.

Lemma segment_risk_step_ok tw cur tod a cell :
  segment_risk_step tw cur tod (Ok a) cell
  = (t ← cell_term tw cur tod cell; Ok (a + t)).
Proof.
  unfold segment_risk_step, cell_term. cbn.
  destruct (cell_weighted_count tw tod cell); reflexivity.
Qed.

Lemma term_le_refl tw cur tod c : term_le tw cur tod c c.
Proof. intros t t' Ht Ht'. rewrite Ht in Ht'. injection Ht' as ->. lra. Qed.

Lemma term_le_diag tw cur tod cells :
  Forall2 (term_le tw cur tod) cells cells.
Proof.
  apply Forall_Forall2_diag, Forall_forall. intros; apply term_le_refl.
Qed.

Lemma segment_risk_fold_mono tw cur tod cells cells' :
  Forall2 (term_le tw cur tod) cells cells' ->
  forall a a' t t',
    a <= a' ->
    foldl (segment_risk_step tw cur tod) (Ok a) cells = Ok t ->
    foldl (segment_risk_step tw cur tod) (Ok a') cells' = Ok t' ->
    t <= t'.
Proof.
  induction 1 as [|c c' cells cells' Hc Hrest IH]; intros a a' t t' Ha Ht Ht'.
  - cbn in Ht, Ht'. injection Ht as <-. injection Ht' as <-. exact Ha.
  - cbn [foldl] in Ht, Ht'. rewrite segment_risk_step_ok in Ht, Ht'.
    destruct (cell_term tw cur tod c) as [u|e] eqn:Hu; cbn in Ht;
      [| rewrite segment_risk_fold_raise in Ht; discriminate].
    destruct (cell_term tw cur tod c') as [u'|e'] eqn:Hu'; cbn in Ht';
      [| rewrite segment_risk_fold_raise in Ht'; discriminate].
    apply (IH (a + u) (a' + u') t t'); [| assumption | assumption].
    specialize (Hc u u' Hu Hu'). lra.
Qed.

Lemma calculate_segment_risk_mono tw cur tod cells cells' r r' :
  Forall2 (term_le tw cur tod) cells cells' ->
  calculate_segment_risk tw cells cur tod = Ok r ->
  calculate_segment_risk tw cells' cur tod = Ok r' ->
  r <= r'.
Proof.
  intros Hall Hr Hr'. unfold calculate_segment_risk in Hr, Hr'.
  pose proof (Forall2_length _ _ _ Hall) as Hlen.
  destruct (foldl _ (Ok 0.0) cells) as [t|e] eqn:Ht; cbn in Hr;
    [| discriminate].
  destruct (foldl _ (Ok 0.0) cells') as [t'|e'] eqn:Ht'; cbn in Hr';
    [| discriminate].
  assert (Hle : t <= t')
    by (apply (segment_risk_fold_mono _ _ _ _ _ Hall 0.0 0.0 t t');
        [lra | assumption | assumption]).
  destruct cells as [|c cells]; destruct cells' as [|c' cells'];
    try discriminate Hlen.
  - injection Hr as <-. injection Hr' as <-. lra.
  - injection Hr as <-. injection Hr' as <-.
    cbn [length] in Hlen. injection Hlen as <-.
    set (n := inject_Z (Z.of_nat (S (length cells)))).
    assert (Hn : 0 < n).
    { unfold n. change 0 with (inject_Z 0). rewrite <- Zlt_Qlt. lia. }
    unfold Qdiv. apply Qmult_le_compat_r; [exact Hle |].
    apply Qlt_le_weak, Qinv_lt_0_compat, Hn.
Qed.

(** Adding an event to a bucket cannot lower its query-time contribution. *)
Lemma add_incident_term_le tw cur tod (c : SafetyCell) cat hw :
  0 <= hw ->
  (forall t row mult,
      tw !! cat = Some row -> row !! t = Some mult -> 0 <= mult) ->
  term_le tw cur tod c (add_incident c cat hw).
Proof.
  intros Hhw Hmult t t' Ht Ht'. unfold cell_term in Ht, Ht'.
  destruct (cell_weighted_count tw tod c) as [w|e] eqn:Hw; [| discriminate].
  destruct (cell_weighted_count tw tod (add_incident c cat hw))
    as [w'|e'] eqn:Hw'; [| discriminate].
  cbn in Ht, Ht'. injection Ht as <-. injection Ht' as <-.
  pose proof (recency_weight_positive
                (calculate_months_ago (month c) cur)) as Hrec.
  apply Qmult_le_compat_r; [| lra].
  unfold cell_weighted_count in Hw, Hw'.
  destruct (truthy tod) as [t|].
  - cbn [stats add_incident] in Hw'.
    destruct (time_weighted_count_incr tw t (stats c) cat w w' Hw Hw')
      as (row & mult & Hrow & Hm & E).
    rewrite E. specialize (Hmult t row mult Hrow Hm). lra.
  - cbn in Hw'. injection Hw as <-. injection Hw' as <-. lra.
Qed.

Lemma sum_risk_single seg : sum_risk [seg] == risk_score seg.
Proof. unfold sum_risk. cbn. ring. Qed.

Lemma score_route_single seg :
  exists s, score_route [seg] = Ok s /\
            s == (1.0 - calculate_risk_score (risk_score seg)) * 100.
Proof.
  eexists. split; [reflexivity |]. cbn zeta.
  assert (E : sum_risk [seg] / inject_Z (Z.of_nat (length [seg]))
              == risk_score seg).
  { rewrite sum_risk_single. cbn. field. }
  rewrite E. reflexivity.
Qed.

Lemma calculate_segment_risk_single tw cell cur tod w :
  calculate_segment_risk tw [cell] cur tod = Ok w ->
  exists wc, cell_weighted_count tw tod cell = Ok wc /\
    w == wc * get_recency_weight (calculate_months_ago (month cell) cur).
Proof.
  unfold calculate_segment_risk. cbn [foldl].
  rewrite segment_risk_step_ok. unfold cell_term.
  destruct (cell_weighted_count tw tod cell) as [wc|e]; cbn; [| discriminate].
  intros [= <-]. exists wc. split; [reflexivity |]. field.
Qed.

End RouteFacts.

(** ** Route segmentation *)

Module SegmentationFacts.

Import Route.

Section Walk.

Variable length_of : LineString -> Q.
Variable max_segment_length : Q.

#[local] Abbreviation step := (segment_step length_of max_segment_length).
#[local] Abbreviation below := (Route.below length_of max_segment_length).
#[local] Abbreviation walk_inv :=
  (Route.walk_inv length_of max_segment_length).
#[local] Abbreviation walk := (segment_walk length_of max_segment_length).

Lemma walk_snoc first rest pt :
  walk first (rest ++ [pt]) = step (walk first rest) pt.
Proof. unfold segment_walk. apply foldl_snoc. Qed.

Lemma walk_inv_init first : walk_inv first [] ([], [first]).
Proof.
  split; cbn; try constructor; try discriminate; try reflexivity.
  intros k Hk. cbn in Hk. lia.
Qed.

Lemma tail_snoc (run : list point) pt :
  run <> [] -> tail (run ++ [pt]) = tail run ++ [pt].
Proof. destruct run; [congruence | reflexivity]. Qed.

Lemma head_snoc (run : list point) pt :
  run <> [] -> head (run ++ [pt]) = head run.
Proof. destruct run; [congruence | reflexivity]. Qed.

Lemma below_snoc (run : list point) pt n :
  (n <= length run)%nat -> below n run -> below n (run ++ [pt]).
Proof.
  intros Hn Hrun k Hk. rewrite take_app_le by lia. apply Hrun, Hk.
Qed.

Lemma walk_inv_step first seen st pt :
  walk_inv first seen st -> walk_inv first (seen ++ [pt]) (step st pt).
Proof.
  intros [Hopen Hsplit Hheads Hreached Hminimal Hsize Hpending].
  destruct st as [segments current]. cbn [fst snd] in *.
  unfold segment_step. cbn [fst snd].
  destruct (Qge_dec (length_of (current ++ [pt])) max_segment_length)
    as [Hemit|Hkeep]; split; cbn [fst snd].
  - discriminate.
  - rewrite fmap_app, concat_app. cbn. rewrite !app_nil_r.
    rewrite tail_snoc by exact Hopen.
    rewrite <- Hsplit, !app_assoc. reflexivity.
  - rewrite !fmap_app in *. cbn in *.
    rewrite head_snoc by exact Hopen.
    rewrite last_snoc.
    rewrite Hheads. reflexivity.
  - apply Forall_app. split; [exact Hreached |].
    constructor; [exact Hemit | constructor].
  - apply Forall_app. split; [exact Hminimal |].
    constructor; [| constructor].
    rewrite length_app. cbn [length].
    replace (length current + 1 - 1)%nat with (length current) by lia.
    apply below_snoc; [lia | exact Hpending].
  - apply Forall_app. split; [exact Hsize |].
    constructor; [| constructor].
    rewrite length_app. cbn [length].
    destruct current; [congruence | cbn; lia].
  - intros k Hk. cbn in Hk. lia.
  - destruct current; [congruence | discriminate].
  - rewrite tail_snoc by exact Hopen.
    rewrite <- Hsplit, !app_assoc. reflexivity.
  - rewrite !fmap_app in *. cbn in *.
    rewrite head_snoc by exact Hopen. exact Hheads.
  - exact Hreached.
  - exact Hminimal.
  - exact Hsize.
  - intros k Hk. rewrite length_app in Hk. cbn [length] in Hk.
    destruct (decide (k = length current + 1)%nat) as [->|Hne].
    + rewrite take_ge by (rewrite length_app; cbn; lia). exact Hkeep.
    + rewrite take_app_le by lia. apply Hpending. lia.
Qed.

Lemma walk_invariant first rest : walk_inv first rest (walk first rest).
Proof.
  induction rest as [|pt rest IH] using rev_ind.
  - apply walk_inv_init.
  - rewrite walk_snoc. apply walk_inv_step, IH.
Qed.

(** A walk whose every prefix stays below the threshold emits nothing. *)
Lemma walk_short first rest :
  below (S (length rest)) (first :: rest) ->
  walk first rest = ([], first :: rest).
Proof.
  induction rest as [|pt rest IH] using rev_ind; intros Hshort.
  - reflexivity.
  - rewrite walk_snoc, IH.
    + unfold segment_step. cbn [fst snd].
      destruct (Qge_dec _ _) as [Hemit|Hkeep]; [| reflexivity].
      specialize (Hshort (S (length (rest ++ [pt])))).
      rewrite take_ge in Hshort by (cbn; lia).
      change ((first :: rest) ++ [pt]) with (first :: rest ++ [pt]) in Hemit.
      rewrite length_app in Hshort. cbn [length] in Hshort.
      assert (length_of (first :: rest ++ [pt]) < max_segment_length)
        by (apply Hshort; lia).
      lra.
    + intros k Hk. specialize (Hshort k).
      rewrite length_app in Hshort. cbn [length] in Hshort.
      change (first :: rest ++ [pt]) with ((first :: rest) ++ [pt]) in Hshort.
      rewrite take_app_le in Hshort by (cbn; lia).
      apply Hshort. lia.
Qed.

End Walk.

End SegmentationFacts.

(** ** Planar length against the default threshold *)

Module PlanarFacts.

Import Route SegmentationFacts.

Lemma floor_ge (n : Z) (x : Q) : (n <= Qfloor x)%Z <-> inject_Z n <= x.
Proof.
  split; intros H.
  - apply Qle_trans with (inject_Z (Qfloor x)); [| apply Qfloor_le].
    rewrite <- Zle_Qle. exact H.
  - rewrite <- (Qfloor_Z n). apply Qfloor_resp_le, H.
Qed.

Lemma sqrt_ge (n m : Z) : (0 < n)%Z -> (n <= Z.sqrt m <-> n * n <= m)%Z.
Proof.
  intros Hn. split; intros H.
  - destruct (Z.le_gt_cases 0 m) as [Hm|Hm].
    + pose proof (Z.sqrt_spec m Hm) as Hs. cbn zeta in Hs.
      assert (n * n <= Z.sqrt m * Z.sqrt m)%Z
        by (apply Z.mul_le_mono_nonneg; lia).
      lia.
    + rewrite Z.sqrt_neg in H by exact Hm. lia.
  - rewrite <- (Z.sqrt_square n) by lia.
    apply Z.sqrt_le_mono, H.
Qed.

(** The truncated root reaches 0.001 exactly when the square reaches
    0.000001. *)
Lemma Qsqrt_reaches_default (d : Q) :
  max_segment_length_default <= Qsqrt d <-> 0.000001 <= d.
Proof.
  unfold Qsqrt, max_segment_length_default.
  set (z := Z.sqrt (Qfloor (d * inject_Z (10 ^ 30)))).
  assert (Hz : 0.001 <= inject_Z z / inject_Z (10 ^ 15)
               <-> (10 ^ 12 <= z)%Z).
  { rewrite Zle_Qle.
    change (inject_Z (10 ^ 15)) with (1000000000000000 # 1).
    change (inject_Z (10 ^ 12)) with (1000000000000 # 1).
    unfold Qdiv.
    change (/ (1000000000000000 # 1)) with (1 # 1000000000000000).
    split; intros H; lra. }
  rewrite Hz. unfold z.
  rewrite sqrt_ge by lia.
  change (10 ^ 12 * 10 ^ 12)%Z with (10 ^ 24)%Z.
  rewrite floor_ge.
  change (inject_Z (10 ^ 24)) with (1000000000000000000000000 # 1).
  change (inject_Z (10 ^ 30)) with (1000000000000000000000000000000 # 1).
  split; intros H; lra.
Qed.

(** A two-vertex polyline under the default threshold: one segment when
    the squared coordinate distance reaches 0.001 squared, none
    otherwise. *)
Lemma segment_route_two_vertices (p q : point) :
  let dx := fst q - fst p in
  let dy := snd q - snd p in
  segment_route [p; q] max_segment_length_default
  = Ok (if Qge_dec (dx * dx + dy * dy) 0.000001 then [[p; q]] else []).
Proof.
  cbn zeta. unfold segment_route, segment_route_with, segment_walk.
  cbn [foldl]. unfold segment_step. cbn [fst snd app].
  assert (E : LineString_length [p; q] == distance p q)
    by (cbn [LineString_length]; ring).
  destruct (Qge_dec (LineString_length [p; q]) max_segment_length_default)
    as [H|H]; rewrite E in H; unfold distance in H; cbn zeta in H;
    destruct (Qge_dec _ 0.000001) as [H'|H']; cbn [fst snd app];
    try reflexivity.
  - apply Qsqrt_reaches_default in H. lra.
  - apply Qsqrt_reaches_default in H'. lra.
Qed.

End PlanarFacts.

(** ** Hexagon totals against segment means *)

Module SnapshotFacts.

Import Scoring Weighting Route Snapshot.
Import ScoringFacts AggregationFacts RouteFacts.

(** Below the cap at 400 the risk function is strictly increasing. *)
Lemma risk_score_strictly_increasing (a b : Q) :
  0 <= a -> a < b -> a < 400 ->
  calculate_risk_score a < calculate_risk_score b.
Proof.
  intros Ha Hab Hcap.
  risk_cases a; risk_cases b; try qarith; resolve_min; qarith.
Qed.

(** Without a time of day the route's running sum and the snapshot's
    [w_group] add the same terms, row by row. *)
Lemma no_time_folds hw tw cur (rows : list SafetyCell) (a b : Q) :
  a == b ->
  exists t t',
    foldl (segment_risk_step tw cur None) (Ok a) rows = Ok t /\
    foldl (w_group_step hw tw cur None) (Ok b) rows = Ok t' /\
    t == t'.
Proof.
  revert a b. induction rows as [|row rows IH]; intros a b Hab; cbn [foldl].
  - exists a, b. split; [reflexivity |]. split; [reflexivity | exact Hab].
  - change (segment_risk_step tw cur None (Ok a) row)
      with (Ok (a + crime_count_weighted row
                    * get_recency_weight
                        (calculate_months_ago (month row) cur))).
    change (w_group_step hw tw cur None (Ok b) row)
      with (Ok (b + crime_count_weighted row
                    * get_recency_weight
                        (calculate_months_ago (month row) cur))).
    apply IH. rewrite Hab. reflexivity.
Qed.

(** A mean over two or more rows is below a positive total. *)
Lemma mean_below_total (g r : Q) (n : nat) :
  (2 <= n)%nat -> 0 < g -> r == g / inject_Z (Z.of_nat n) ->
  0 < r /\ r < g.
Proof.
  intros Hn Hg Hr.
  assert (HN : 2 <= inject_Z (Z.of_nat n)).
  { change 2 with (inject_Z 2). rewrite <- Zle_Qle. lia. }
  set (N := inject_Z (Z.of_nat n)) in *.
  assert (E : r * N == g) by (rewrite Hr; field; lra).
  assert (Hpos : 0 < r).
  { destruct (Qlt_le_dec 0 r) as [H|H]; [exact H | exfalso].
    assert (r * N <= 0) by nra. lra. }
  split; [exact Hpos | nra].
Qed.

End SnapshotFacts.

(** * The specification's claims *)

Module Claims.

Import Scoring Aggregation Weighting Route Frontend.
Import ScoringFacts AggregationFacts WeightingFacts RouteFacts.
Import SegmentationFacts PlanarFacts Samples.
Import Snapshot SnapshotFacts.

(** C1.  For a weighted count [w >= 0], [calculate_risk_score] is the
    piecewise-linear table over the thresholds 5, 20, 50, 100, 200: zero
    at zero, the six linear pieces on their ranges, and in particular
    0.2 at 5, 0.95 at 200 and 1 from 400 on. *)
Theorem risk_score_is_the_piecewise_table (w : Q) :
  0 <= w ->
  (w == 0 -> calculate_risk_score w == 0) /\
  (0 < w -> w < 5 -> calculate_risk_score w == 0.2 * w / 5) /\
  (5 <= w -> w < 20 -> calculate_risk_score w == 0.2 + 0.2 * (w - 5) / 15) /\
  (20 <= w -> w < 50 -> calculate_risk_score w == 0.4 + 0.2 * (w - 20) / 30) /\
  (50 <= w -> w < 100 ->
     calculate_risk_score w == 0.6 + 0.2 * (w - 50) / 50) /\
  (100 <= w -> w < 200 ->
     calculate_risk_score w == 0.8 + 0.15 * (w - 100) / 100) /\
  (200 <= w ->
     calculate_risk_score w == 0.95 + 0.05 * Qmin (w - 200) 200 / 200) /\
  calculate_risk_score 5 == 0.2 /\
  calculate_risk_score 200 == 0.95 /\
  (400 <= w -> calculate_risk_score w == 1.0).
Proof.
  intros _.
  split; [apply risk_score_zero |].
  split; [apply risk_score_band1 |].
  split; [apply risk_score_band2 |].
  split; [apply risk_score_band3 |].
  split; [apply risk_score_band4 |].
  split; [apply risk_score_band5 |].
  split; [apply risk_score_band6 |].
  split; [reflexivity |].
  split; [reflexivity |].
  intros Hw. rewrite risk_score_cap by exact Hw. reflexivity.
Qed.

Lemma risk_score_is_the_piecewise_table_witness :
  0 <= 7.5 /\ calculate_risk_score 7.5 == 0.2 + 0.2 * (7.5 - 5) / 15.
Proof.
  assert (H0 : 0 <= 7.5) by (vm_compute; discriminate).
  split; [exact H0 |].
  destruct (risk_score_is_the_piecewise_table 7.5 H0)
    as (_ & _ & Hband & _).
  apply Hband; vm_compute; [discriminate | reflexivity].
Defined.

(** C2.  A bucket holding one violent-crime event (harm weight 3.0,
    stored weighted count 3.0), queried in its own month.  With
    [time_of_day = "night"] the weighted value is the count times the
    night multiplier, 2.5: the harm weight does not enter, so the value
    is not 3.0 * 2.5 = 7.5.  Without a time of day it is the stored
    harm-weighted count. *)
Theorem night_query_leaves_out_harm_weight
    (other_categories : gmap string (gmap string Q)) :
  (exists w,
      calculate_segment_risk (CRIME_TIME_WEIGHTS other_categories)
        [violent_cell] sample_month (Some "night"%string) = Ok w /\
      w == 2.5 /\ ~ w == 3.0 * 2.5 * 1.0) /\
  (exists w,
      calculate_segment_risk (CRIME_TIME_WEIGHTS other_categories)
        [violent_cell] sample_month None = Ok w /\
      w == 3.0).
Proof.
  split.
  - unfold calculate_segment_risk. cbn [foldl].
    rewrite segment_risk_step_ok. unfold cell_term, cell_weighted_count.
    cbn [truthy stats month violent_cell]. unfold time_weighted_count.
    rewrite map_fold_singleton. unfold time_weight_term.
    cbn [mbind result_bind].
    unfold getitem, CRIME_TIME_WEIGHTS. rewrite lookup_insert_eq.
    cbn [mbind result_bind].
    change (time_row 2.5 2.0 1.0 0.8 !! "night"%string) with (Some 2.5).
    cbn [mbind result_bind length].
    eexists. split; [reflexivity |].
    split; vm_compute; [reflexivity | discriminate].
  - eexists. split; [reflexivity |]. vm_compute. reflexivity.
Qed.

(** C3.  Hexagons and routes share [calculate_risk_score], but not its
    argument.  For the monthly rows of one h3 cell the snapshot's
    [w_group] is the recency-weighted sum over the rows, and
    [calculate_segment_risk] on the same rows returns that sum divided
    by the number of rows.  A segment that carries this mean and the
    hexagon that carries [w_group] get the same safety score for a
    single row; with two or more rows and a positive total the route's
    score is strictly the better one.  For the three rows of example 1
    of the scoring document the hexagon total is 46.1 and the segment
    mean 46.1 / 3; with [time_of_day = "night"] the hexagon total is the
    document's 109.45 and the segment mean 13.45, the harm weights
    being left out as well. *)
Theorem single_cell_route_departs_from_hexagon
    (hw : string -> Q) (tw : gmap string (gmap string Q))
    (current_month : date) (rows : list SafetyCell) :
  (exists g r,
      w_group hw tw current_month None rows = Ok g /\
      calculate_segment_risk tw rows current_month None = Ok r /\
      (rows <> [] -> r == g / inject_Z (Z.of_nat (length rows))) /\
      forall agg seg,
        total_weighted agg = g -> risk_score seg = r ->
        exists route_safety,
          score_route [seg] = Ok route_safety /\
          (length rows = 1%nat -> route_safety == (hexagon_score agg).2) /\
          ((2 <= length rows)%nat -> 0 < g -> r < 400 ->
           (hexagon_score agg).2 < route_safety)) /\
  (exists g r g_night r_night,
      w_group sample_harm_weight (CRIME_TIME_WEIGHTS ∅) sample_month None
        Scenarios.example_rows = Ok g /\
      calculate_segment_risk (CRIME_TIME_WEIGHTS ∅) Scenarios.example_rows
        sample_month None = Ok r /\
      g == 46.1 /\ r == 46.1 / 3 /\
      w_group sample_harm_weight (CRIME_TIME_WEIGHTS ∅) sample_month
        (Some "night"%string) Scenarios.example_rows = Ok g_night /\
      calculate_segment_risk (CRIME_TIME_WEIGHTS ∅) Scenarios.example_rows
        sample_month (Some "night"%string) = Ok r_night /\
      g_night == 109.45 /\ r_night == 13.45 /\
      safety_score (calculate_risk_score g_night) == 18.6 /\
      safety_score (calculate_risk_score r_night) == 68.7).
Proof.
  split.
  - destruct (no_time_folds hw tw current_month rows 0.0 0)
      as (t & g & Ht & Hg & Htg); [reflexivity |].
    unfold calculate_segment_risk, w_group. rewrite Ht, Hg.
    cbn [mbind result_bind].
    set (n := inject_Z (Z.of_nat (length rows))).
    exists g, (match rows with [] => 0.0 | _ => t / n end).
    split; [reflexivity |].
    split; [destruct rows; reflexivity |].
    assert (Hmean : rows <> [] ->
              match rows with [] => 0.0 | _ => t / n end == g / n).
    { destruct rows; [congruence |]. intros _. rewrite Htg. reflexivity. }
    split; [exact Hmean |].
    intros agg seg Hagg Hseg.
    destruct (score_route_single seg) as (s & Hs & Es).
    exists s. split; [exact Hs |].
    unfold hexagon_score. cbn [snd]. rewrite Hagg, Es, Hseg. split.
    + intros Hone.
      assert (Hne : rows <> []) by (intros ->; discriminate).
      rewrite (Hmean Hne). unfold n. rewrite Hone.
      assert (E : g / inject_Z (Z.of_nat 1) == g) by (cbn; field).
      rewrite E. reflexivity.
    + intros Hmany Hpos Hcap.
      assert (Hne : rows <> []) by (intros ->; cbn in Hmany; lia).
      destruct (mean_below_total g _ (length rows) Hmany Hpos (Hmean Hne))
        as [Hr0 Hrg].
      pose proof (risk_score_strictly_increasing _ g
                    (Qlt_le_weak _ _ Hr0) Hrg Hcap).
      lra.
  - eexists. eexists. eexists. eexists.
    split; [vm_compute; reflexivity |].
    split; [vm_compute; reflexivity |].
    split; [vm_compute; reflexivity |].
    split; [vm_compute; reflexivity |].
    split; [vm_compute; reflexivity |].
    split; [vm_compute; reflexivity |].
    split; [vm_compute; reflexivity |].
    split; [vm_compute; reflexivity |].
    split; vm_compute; reflexivity.
Qed.

Lemma single_cell_route_departs_from_hexagon_witness :
  exists g r route_safety,
    w_group sample_harm_weight (CRIME_TIME_WEIGHTS ∅) sample_month None
      Scenarios.example_rows = Ok g /\
    calculate_segment_risk (CRIME_TIME_WEIGHTS ∅) Scenarios.example_rows
      sample_month None = Ok r /\
    score_route [Scenarios.segment_with r] = Ok route_safety /\
    (hexagon_score (Scenarios.aggregate_with g)).2 < route_safety.
Proof.
  destruct (single_cell_route_departs_from_hexagon sample_harm_weight
              (CRIME_TIME_WEIGHTS ∅) sample_month Scenarios.example_rows)
    as [(g & r & Hg & Hr & _ & Hscore) _].
  destruct (Hscore (Scenarios.aggregate_with g) (Scenarios.segment_with r)
              eq_refl eq_refl) as (s & Hs & _ & Hlt).
  exists g, r, s.
  split; [exact Hg |]. split; [exact Hr |]. split; [exact Hs |].
  vm_compute in Hg. injection Hg as <-.
  vm_compute in Hr. injection Hr as <-.
  apply Hlt; [cbn; lia | reflexivity | reflexivity].
Defined.

(** C4, as the code has it.  [segment_route] walks the vertices in
    order and closes a segment at the first vertex where the planar
    length of the run, in coordinate units, is at least
    [max_segment_length]; the next run starts at that vertex, and the run
    left open at the end never reached the threshold.  The returned list
    holds the segments in that order, at positions 0 to [len - 1].  With
    the default 0.001 the threshold is in degrees of lon / lat: a
    two-vertex polyline is a segment exactly when its squared coordinate
    distance is at least 0.000001, at any latitude. *)
Theorem segment_route_uses_a_degree_threshold
    (first : point) (rest : list point) (max_segment_length : Q) :
  exists segments open_run,
    segment_route (first :: rest) max_segment_length = Ok segments /\
    concat (tail <$> segments) ++ tail open_run = rest /\
    head <$> (segments ++ [open_run]) = Some first :: (last <$> segments) /\
    Forall
      (fun s =>
         max_segment_length <= LineString_length s /\
         forall k, (2 <= k < length s)%nat ->
                   LineString_length (take k s) < max_segment_length)
      segments /\
    (forall k, (2 <= k <= length open_run)%nat ->
               LineString_length (take k open_run) < max_segment_length) /\
    (forall i, (i < length segments)%nat <-> is_Some (segments !! i)) /\
    forall p q : point,
      let dx := fst q - fst p in
      let dy := snd q - snd p in
      segment_route [p; q] max_segment_length_default
      = Ok (if Qge_dec (dx * dx + dy * dy) 0.000001 then [[p; q]] else []).
Proof.
  destruct (walk_invariant LineString_length max_segment_length first rest)
    as [_ Hsplit Hheads Hreached Hminimal Hsize Hpending].
  exists (segment_walk LineString_length max_segment_length first rest).1,
         (segment_walk LineString_length max_segment_length first rest).2.
  split; [reflexivity |].
  split; [exact Hsplit |].
  split; [exact Hheads |].
  split.
  { rewrite Forall_forall in *. intros s Hs.
    split; [apply Hreached, Hs |].
    intros k Hk. apply (Hminimal s Hs). lia. }
  split; [exact Hpending |].
  split; [intros i; symmetry; apply lookup_lt_is_Some |].
  apply segment_route_two_vertices.
Qed.

Lemma segment_route_uses_a_degree_threshold_witness :
  exists segments open_run,
    segment_route tailed_route max_segment_length_default = Ok segments /\
    concat (tail <$> segments) ++ tail open_run
    = [(-1.4044, 50.9108); (-1.4044, 50.9112)] /\
    segments = [[(-1.4044, 50.9097); (-1.4044, 50.9108)]].
Proof.
  destruct (segment_route_uses_a_degree_threshold (-1.4044, 50.9097)
              [(-1.4044, 50.9108); (-1.4044, 50.9112)]
              max_segment_length_default)
    as (segments & open_run & Hret & Hsplit & _).
  exists segments, open_run.
  split; [exact Hret |].
  split; [exact Hsplit |].
  change (segment_route tailed_route max_segment_length_default = Ok segments)
    in Hret.
  vm_compute in Hret. injection Hret as <-. reflexivity.
Defined.

(** C4 as stated fails.  One hundred meters are [buffer_degrees 100]
    degrees by the conversion the route code itself uses (1 degree for
    111 km).  The polyline [meridian_route] runs 0.00099 degrees along a
    meridian, about 110 m: its length has reached 100 m, and no segment
    is emitted. *)
Lemma segment_route_is_not_metric :
  buffer_degrees 100 <= LineString_length meridian_route /\
  segment_route meridian_route max_segment_length_default = Ok [] /\
  ~ (forall route : LineString,
        buffer_degrees 100 <= LineString_length route ->
        exists segments,
          segment_route route max_segment_length_default = Ok segments /\
          segments <> []).
Proof.
  assert (Hlen : buffer_degrees 100 <= LineString_length meridian_route)
    by (vm_compute; discriminate).
  assert (Hnone : segment_route meridian_route max_segment_length_default
                  = Ok [])
    by (vm_compute; reflexivity).
  split; [exact Hlen |].
  split; [exact Hnone |].
  intros Hclaim.
  destruct (Hclaim meridian_route Hlen) as (segments & Hsegs & Hne).
  rewrite Hnone in Hsegs. injection Hsegs as <-. apply Hne. reflexivity.
Qed.

(** C5.  The risk mapping is monotone: [calculate_risk_score] is
    non-decreasing on the non-negative weighted counts, and for fixed
    query parameters (current month, time of day, the cells in view), an
    event added to one bucket, with a non-negative harm weight and
    non-negative time-of-day multipliers for its category, never lowers
    the risk score of the query. *)
Theorem risk_is_monotone_in_events :
  (forall a b : Q,
      0 <= a -> a <= b -> calculate_risk_score a <= calculate_risk_score b) /\
  (forall (tw : gmap string (gmap string Q)) (before after : list SafetyCell)
          (c : SafetyCell) (cat : string) (hw : Q)
          (current_month : date) (time_of_day : option string) (r r' : Q),
      0 <= hw ->
      (forall t row mult,
          tw !! cat = Some row -> row !! t = Some mult -> 0 <= mult) ->
      calculate_segment_risk tw (before ++ c :: after)
        current_month time_of_day = Ok r ->
      calculate_segment_risk tw (before ++ add_incident c cat hw :: after)
        current_month time_of_day = Ok r' ->
      r <= r' /\ calculate_risk_score r <= calculate_risk_score r').
Proof.
  split.
  - intros a b _ Hab. apply risk_score_monotone, Hab.
  - intros tw before after c cat hw cur tod r r' Hhw Hmult Hr Hr'.
    assert (Hle : r <= r').
    { eapply (calculate_segment_risk_mono tw cur tod);
        [| exact Hr | exact Hr'].
      apply Forall2_app; [apply term_le_diag |].
      constructor; [| apply term_le_diag].
      apply add_incident_term_le; assumption. }
    split; [exact Hle | apply risk_score_monotone, Hle].
Qed.

Lemma risk_is_monotone_in_events_witness :
  calculate_risk_score 3 <= calculate_risk_score 6 /\
  exists r r',
    calculate_segment_risk (CRIME_TIME_WEIGHTS ∅) [sample_cell]
      sample_month (Some "night"%string) = Ok r /\
    calculate_segment_risk (CRIME_TIME_WEIGHTS ∅)
      [add_incident sample_cell "violent-crime" 3.0]
      sample_month (Some "night"%string) = Ok r' /\
    r <= r' /\ calculate_risk_score r <= calculate_risk_score r'.
Proof.
  destruct risk_is_monotone_in_events as [Hmono Hevent].
  split.
  - apply Hmono; vm_compute; discriminate.
  - eexists. eexists.
    split; [vm_compute; reflexivity |].
    split; [vm_compute; reflexivity |].
    apply (Hevent (CRIME_TIME_WEIGHTS ∅) [] [] sample_cell
             "violent-crime"%string 3.0 sample_month (Some "night"%string)).
    + vm_compute; discriminate.
    + intros t row mult Hrow Hm.
      assert (row = time_row 2.5 2.0 1.0 0.8) as ->
        by (unfold CRIME_TIME_WEIGHTS in Hrow;
            rewrite lookup_insert_eq in Hrow; congruence).
      unfold time_row in Hm.
      apply elem_of_list_to_map_2 in Hm.
      cbn in Hm. rewrite !elem_of_cons, elem_of_nil in Hm.
      destruct Hm as [Hm|[Hm|[Hm|[Hm|[]]]]]; injection Hm as _ ->;
        vm_compute; discriminate.
    + vm_compute; reflexivity.
    + vm_compute; reflexivity.
Defined.

(** C6.  [get_recency_weight] returns the table value for months-ago 0
    to 12 and 0.30 for every larger months-ago. *)
Theorem recency_weight_is_the_table :
  get_recency_weight 0 = 1.00 /\ get_recency_weight 1 = 0.95 /\
  get_recency_weight 2 = 0.90 /\ get_recency_weight 3 = 0.85 /\
  get_recency_weight 4 = 0.75 /\ get_recency_weight 5 = 0.70 /\
  get_recency_weight 6 = 0.65 /\ get_recency_weight 7 = 0.60 /\
  get_recency_weight 8 = 0.55 /\ get_recency_weight 9 = 0.50 /\
  get_recency_weight 10 = 0.45 /\ get_recency_weight 11 = 0.40 /\
  get_recency_weight 12 = 0.35 /\
  (forall k : Z, (12 < k)%Z -> get_recency_weight k = 0.30).
Proof.
  repeat (split; [reflexivity |]).
  intros k Hk. unfold get_recency_weight.
  rewrite recency_weight_outside by (right; exact Hk). reflexivity.
Qed.

Lemma recency_weight_is_the_table_witness :
  (12 < 13)%Z /\ get_recency_weight 13 = 0.30.
Proof.
  assert (H : (12 < 13)%Z) by reflexivity.
  split; [exact H |].
  destruct recency_weight_is_the_table
    as (_ & _ & _ & _ & _ & _ & _ & _ & _ & _ & _ & _ & _ & Hlate).
  exact (Hlate 13%Z H).
Defined.

(** C7.  Conservation: a fresh bucket satisfies both equalities, one
    fold step (count, histogram and weighted count updated for one
    incident) preserves them, and after the monthly fold every bucket has
    [crime_count_total = sum(stats.values())] and a [crime_count_weighted]
    equal to the harm-weighted histogram sum, well within 1e-6. *)
Theorem aggregation_fold_conserves_counts
    (hw : string -> Q) (m : date) (month_crimes : list CrimeIncident)
    (cells : gmap string SafetyCell) :
  Forall (fun i => harm_weight i == hw (category i)) month_crimes ->
  map_Forall (fun _ c => conserved hw c) cells ->
  (forall id g, conserved hw (new_cell id g m)) /\
  (forall c incident,
      harm_weight incident == hw (category incident) ->
      conserved hw c ->
      conserved hw
        (add_incident c (category incident) (harm_weight incident))) /\
  map_Forall
    (fun _ c =>
       crime_count_total c = stats_sum (stats c) /\
       crime_count_weighted c == stats_harm_sum hw (stats c) /\
       Qabs (crime_count_weighted c - stats_harm_sum hw (stats c))
         < 0.000001)
    (aggregate_month m month_crimes cells).
Proof.
  intros Hcrimes Hcells.
  split; [intros; apply new_cell_conserved |].
  split; [intros c incident Hw Hc; apply add_incident_conserved; assumption |].
  intros id c Hc.
  pose proof (aggregate_month_conserved hw m month_crimes Hcrimes cells
                Hcells id c Hc) as Hcons.
  cbn beta in Hcons.
  destruct Hcons as [Htot Hwt].
  split; [exact Htot |].
  split; [exact Hwt |].
  apply conserved_tolerance. split; assumption.
Qed.

Lemma aggregation_fold_conserves_counts_witness :
  map_Forall
    (fun _ c =>
       crime_count_total c = stats_sum (stats c) /\
       crime_count_weighted c
         == stats_harm_sum sample_harm_weight (stats c) /\
       Qabs (crime_count_weighted c
             - stats_harm_sum sample_harm_weight (stats c)) < 0.000001)
    (aggregate_month sample_month sample_crimes ∅).
Proof.
  apply (aggregation_fold_conserves_counts sample_harm_weight sample_month
           sample_crimes ∅).
  - repeat constructor.
  - apply map_Forall_empty.
Defined.

(** C8.  The safety score 73.9 of the scoring document's route example,
    classified "MODERATE" there: the heatmap style and the route colour
    put it in the middle band (thresholds 75 and 50), [getRiskClass] and
    [getRiskColor] call it low (thresholds 70 and 40).  The same example
    through [score_route]: the safety score comes back unrounded, while
    step 3.3 rounds it to 73.9. *)
Theorem risk_class_thresholds_disagree :
  getRiskClass 73.9 = "low"%string /\
  getRiskColor 73.9 = "bg-risk-low/20 text-risk-low border-risk-low"%string /\
  heatmap_style (Some 73.9) = ("#ca8a04"%string, 0.35) /\
  route_color 73.9 = "#eab308"%string /\
  (forall seg,
      risk_score seg = 9.6 ->
      exists s, score_route [seg] = Ok s /\
                safety_score (calculate_risk_score 9.6) == 73.9 /\
                ~ s == 73.9).
Proof.
  repeat (split; [reflexivity |]).
  intros [idx sp ep risk n] Hrisk. cbn in Hrisk. subst risk.
  eexists. split; [reflexivity |].
  split; vm_compute; [reflexivity | discriminate].
Qed.

Lemma risk_class_thresholds_disagree_witness :
  exists s,
    score_route [example_segment] = Ok s /\
    safety_score (calculate_risk_score 9.6) == 73.9 /\ ~ s == 73.9.
Proof.
  destruct risk_class_thresholds_disagree as (_ & _ & _ & _ & Hroute).
  apply Hroute. reflexivity.
Defined.

(** C9.  A polyline of two distinct vertices whose length stays below
    the default threshold: [segment_route] returns the empty list, and
    whatever is computed per segment, [score_route] on the resulting
    segments divides by [len(segments) = 0]. *)
Theorem short_route_reaches_division_by_zero :
  short_route = [(-1.4044, 50.9097); (-1.4044, 50.9102)] /\
  ~ 50.9097 == 50.9102 /\
  LineString_length short_route < max_segment_length_default /\
  segment_route short_route max_segment_length_default = Ok [] /\
  score_route [] = Raise ZeroDivisionError /\
  forall to_segment : LineString -> RouteSegment,
    (segments ← segment_route short_route max_segment_length_default;
     score_route (to_segment <$> segments)) = Raise ZeroDivisionError.
Proof.
  split; [reflexivity |].
  split; [vm_compute; discriminate |].
  split; [vm_compute; reflexivity |].
  assert (E : segment_route short_route max_segment_length_default = Ok [])
    by (vm_compute; reflexivity).
  split; [exact E |].
  split; [reflexivity |].
  intros to_segment. rewrite E. reflexivity.
Qed.

(** C10, as the code has it.  [segment_route] returns the closed
    segments and nothing else.  Every returned segment reached the
    threshold, at its last vertex and not before; the run left open at
    the end starts where the last segment ended, none of its tested
    prefixes reached the threshold, and when it has an edge it is not
    among the segments.  Segments and open run split the vertices
    after the first in order, so the segments cover all of them exactly
    when the last vertex closes a segment; otherwise the vertices of the
    open run after its first belong to no segment.  A route whose every
    prefix stays below the threshold yields no segment at all. *)
Theorem trailing_remainder_is_dropped
    (length_of : LineString -> Q) (max_segment_length : Q)
    (first : point) (rest : list point) :
  exists segments open_run,
    segment_route_with length_of max_segment_length (first :: rest)
    = Ok segments /\
    concat (tail <$> segments) ++ tail open_run = rest /\
    head <$> (segments ++ [open_run]) = Some first :: (last <$> segments) /\
    Forall
      (fun s =>
         max_segment_length <= length_of s /\
         forall k, (2 <= k < length s)%nat ->
                   length_of (take k s) < max_segment_length)
      segments /\
    (forall k, (2 <= k <= length open_run)%nat ->
               length_of (take k open_run) < max_segment_length) /\
    (tail open_run <> [] -> open_run ∉ segments) /\
    (concat (tail <$> segments) = rest <-> tail open_run = []) /\
    (tail open_run <> [] ->
     concat (tail <$> segments)
     = take (length rest - length (tail open_run)) rest /\
     (length (concat (tail <$> segments)) < length rest)%nat) /\
    ((forall k, (2 <= k <= S (length rest))%nat ->
                length_of (take k (first :: rest)) < max_segment_length) ->
     segments = [] /\ open_run = first :: rest).
Proof.
  destruct (walk_invariant length_of max_segment_length first rest)
    as [Hopen Hsplit Hheads Hreached Hminimal Hsize Hpending].
  set (st := segment_walk length_of max_segment_length first rest) in *.
  exists st.1, st.2.
  split; [reflexivity |].
  split; [exact Hsplit |].
  split; [exact Hheads |].
  split.
  { rewrite Forall_forall in *. intros s Hs.
    split; [apply Hreached, Hs |].
    intros k Hk. apply (Hminimal s Hs). lia. }
  split; [exact Hpending |].
  split.
  { intros Htail Hin.
    rewrite Forall_forall in Hreached. specialize (Hreached _ Hin).
    assert (Hlen : (2 <= length st.2)%nat).
    { destruct st.2 as [|p [|q run]]; cbn in *; try congruence; lia. }
    specialize (Hpending (length st.2) ltac:(lia)).
    rewrite take_ge in Hpending by lia.
    apply (Qlt_not_le _ _ Hpending Hreached). }
  split.
  { split.
    - intros Hall.
      apply (app_inv_head (concat (tail <$> st.1))).
      rewrite app_nil_r. congruence.
    - intros Hnil. rewrite Hnil, app_nil_r in Hsplit. exact Hsplit. }
  split.
  { intros Htail. split.
    - rewrite <- Hsplit. rewrite length_app.
      replace (length (concat (tail <$> st.1)) + length (tail st.2)
               - length (tail st.2))%nat
        with (length (concat (tail <$> st.1))) by lia.
      rewrite take_app_length. reflexivity.
    - rewrite <- Hsplit. rewrite length_app.
      destruct (tail st.2); [congruence | cbn; lia]. }
  intros Hshort. unfold st.
  rewrite (walk_short length_of max_segment_length first rest Hshort).
  split; reflexivity.
Qed.

Lemma trailing_remainder_is_dropped_witness :
  exists segments open_run,
    segment_route tailed_route max_segment_length_default = Ok segments /\
    segments = [[(-1.4044, 50.9097); (-1.4044, 50.9108)]] /\
    tail open_run = [(-1.4044, 50.9112)] /\
    (open_run ∉ segments) /\
    (length (concat (tail <$> segments)) < 2)%nat.
Proof.
  destruct (trailing_remainder_is_dropped LineString_length
              max_segment_length_default (-1.4044, 50.9097)
              [(-1.4044, 50.9108); (-1.4044, 50.9112)])
    as (segments & open_run & Hret & Hsplit & _ & _ & _ & Hout & _
        & Hcover & _).
  exists segments, open_run.
  change (segment_route tailed_route max_segment_length_default = Ok segments)
    in Hret.
  split; [exact Hret |].
  vm_compute in Hret. injection Hret as <-.
  cbn [fmap list_fmap tail concat app] in Hsplit.
  injection Hsplit as Htail.
  split; [reflexivity |].
  split; [exact Htail |].
  assert (Hne : tail open_run <> []) by (rewrite Htail; discriminate).
  split; [apply Hout, Hne | apply (Hcover Hne)].
Defined.

(** C10 as stated fails for the routes whose last vertex closes a
    segment.  The two vertices of [closed_route] are 0.0011 degrees
    apart: the one segment returned holds both, so the segments cover
    the full vertex sequence and no tail is left out. *)
Lemma segment_route_can_cover_every_vertex :
  segment_route Scenarios.closed_route max_segment_length_default
  = Ok [Scenarios.closed_route] /\
  concat (tail <$> [Scenarios.closed_route]) = tail Scenarios.closed_route /\
  ~ (forall (first : point) (rest : list point) segments,
        segment_route (first :: rest) max_segment_length_default
        = Ok segments ->
        (length (concat (tail <$> segments)) < length rest)%nat).
Proof.
  assert (Hret : segment_route Scenarios.closed_route
                   max_segment_length_default
                 = Ok [Scenarios.closed_route])
    by (vm_compute; reflexivity).
  split; [exact Hret |].
  split; [reflexivity |].
  intros Hclaim.
  specialize (Hclaim (-1.4044, 50.9097) [(-1.4044, 50.9108)]
                [Scenarios.closed_route] Hret).
  cbn in Hclaim. lia.
Qed.

End Claims.

(** * Further properties of the scoring code *)

Module ScoringExtras.

Import Scoring Aggregation Weighting Route.
Import ScoringFacts AggregationFacts WeightingFacts RouteFacts.

Lemma risk_score_nonneg (w : Q) : 0 <= w -> 0 <= calculate_risk_score w.
Proof.
  intros Hw. risk_cases w; try qarith. resolve_min; qarith.
Qed.

Lemma risk_score_le_one (w : Q) : calculate_risk_score w <= 1.
Proof.
  risk_cases w; try qarith. resolve_min; qarith.
Qed.

(** X1.  For a non-negative weighted total the hexagon's risk score lies
    in [0, 1] and its safety score in [0, 100]. *)
Theorem hexagon_score_stays_in_range (agg : CellAggregate) :
  0 <= total_weighted agg ->
  0 <= (hexagon_score agg).1 /\ (hexagon_score agg).1 <= 1 /\
  0 <= (hexagon_score agg).2 /\ (hexagon_score agg).2 <= 100.
Proof.
  intros Hw. unfold hexagon_score. cbn [fst snd].
  pose proof (risk_score_nonneg _ Hw) as Hlo.
  pose proof (risk_score_le_one (total_weighted agg)) as Hhi.
  repeat split; lra.
Qed.

(** X2.  The risk function has no jumps: between two weighted counts it
    rises by at most 0.04 per unit, the slope of its first piece. *)
Theorem risk_score_is_lipschitz (a b : Q) :
  a <= b ->
  calculate_risk_score b - calculate_risk_score a <= 0.04 * (b - a).
Proof.
  intros Hab.
  risk_cases a; risk_cases b; try qarith; resolve_min; qarith.
Qed.

(** X3.  A negative weighted count is not clamped: it falls into the
    first linear piece, the risk is negative and the hexagon's safety
    score exceeds 100. *)
Theorem negative_count_is_not_clamped (agg : CellAggregate) :
  total_weighted agg < 0 ->
  (hexagon_score agg).1 == 0.04 * total_weighted agg /\
  (hexagon_score agg).1 < 0 /\
  100 < (hexagon_score agg).2.
Proof.
  intros Hw. unfold hexagon_score. cbn [fst snd].
  assert (E : calculate_risk_score (total_weighted agg)
              == 0.04 * total_weighted agg)
    by (risk_cases (total_weighted agg); qarith).
  rewrite E. repeat split; lra.
Qed.

Lemma recency_weight_cases (k : Z) :
  ((k < 0 \/ 12 < k)%Z /\ get_recency_weight k = 0.30) \/
  (k = 0 \/ k = 1 \/ k = 2 \/ k = 3 \/ k = 4 \/ k = 5 \/ k = 6 \/ k = 7
   \/ k = 8 \/ k = 9 \/ k = 10 \/ k = 11 \/ k = 12)%Z.
Proof.
  destruct (decide (k < 0 \/ 12 < k)%Z) as [Hout|Hin].
  - left. split; [exact Hout |]. unfold get_recency_weight.
    rewrite recency_weight_outside by exact Hout. reflexivity.
  - right. lia.
Qed.

Ltac recency_enum Hk :=
  repeat (destruct Hk as [->|Hk]); [.. | subst].

(** X4.  The recency weight always lies between 0.30 and 1.00, it never
    grows with the age of the data from month 0 on, and a negative
    months-ago (a bucket dated after the current month) gets the
    smallest weight, 0.30. *)
Theorem recency_weight_decays (j k : Z) :
  0.30 <= get_recency_weight k /\ get_recency_weight k <= 1.00 /\
  ((0 <= j)%Z -> (j <= k)%Z -> get_recency_weight k <= get_recency_weight j) /\
  ((k < 0)%Z -> get_recency_weight k = 0.30).
Proof.
  assert (Hbounds : forall i, 0.30 <= get_recency_weight i /\
                              get_recency_weight i <= 1.00).
  { intros i. destruct (recency_weight_cases i) as [[_ ->]|Hi].
    - split; vm_compute; discriminate.
    - recency_enum Hi; split; vm_compute; discriminate. }
  split; [apply Hbounds |]. split; [apply Hbounds |]. split.
  - intros Hj Hjk.
    destruct (recency_weight_cases k) as [[Hk ->]|Hk]; [apply Hbounds |].
    destruct (recency_weight_cases j) as [[Hj' _]|Hj']; [lia |].
    recency_enum Hk; recency_enum Hj'; try lia; vm_compute; discriminate.
  - intros Hk. unfold get_recency_weight.
    rewrite recency_weight_outside by (left; exact Hk). reflexivity.
Qed.

Lemma hexagon_score_stays_in_range_witness :
  0 <= (hexagon_score Samples.sample_aggregate).1 /\
  (hexagon_score Samples.sample_aggregate).1 <= 1 /\
  0 <= (hexagon_score Samples.sample_aggregate).2 /\
  (hexagon_score Samples.sample_aggregate).2 <= 100.
Proof.
  apply (hexagon_score_stays_in_range Samples.sample_aggregate).
  vm_compute. discriminate.
Defined.

Lemma risk_score_is_lipschitz_witness :
  calculate_risk_score 30 - calculate_risk_score 3 <= 0.04 * (30 - 3).
Proof.
  apply (risk_score_is_lipschitz 3 30). vm_compute. discriminate.
Defined.

Lemma negative_count_is_not_clamped_witness :
  (hexagon_score Scenarios.negative_aggregate).1 == -0.4 /\
  100 < (hexagon_score Scenarios.negative_aggregate).2.
Proof.
  destruct (negative_count_is_not_clamped Scenarios.negative_aggregate)
    as (Hrisk & _ & Hsafety); [vm_compute; reflexivity |].
  split; [| exact Hsafety].
  rewrite Hrisk. vm_compute. reflexivity.
Defined.

End ScoringExtras.

Module SegmentRiskExtras.

Import Scoring Aggregation Weighting Route.
Import ScoringFacts AggregationFacts WeightingFacts RouteFacts ScoringAux.

Lemma time_weighted_count_outcome tw tod (st : gmap string Z) :
  (covered tw tod st /\ exists q, time_weighted_count tw tod st = Ok q) \/
  (~ covered tw tod st /\ time_weighted_count tw tod st = Raise KeyError).
Proof.
  unfold time_weighted_count, covered.
  apply (map_fold_weak_ind
           (fun r (m : gmap string Z) =>
              (map_Forall (fun cat _ => is_Some (tw !! cat ≫= (.!! tod))) m
               /\ exists q, r = Ok q) \/
              (~ map_Forall (fun cat _ => is_Some (tw !! cat ≫= (.!! tod))) m
               /\ r = Raise KeyError))).
  - left. split; [apply map_Forall_empty | eexists; reflexivity].
  - intros cat n m r Hfresh IH.
    rewrite map_Forall_insert by exact Hfresh.
    unfold time_weight_term, getitem.
    destruct IH as [[Hall [q ->]]|[Hnot ->]]; cbn.
    + destruct (tw !! cat) as [row|]; cbn.
      * destruct (row !! tod) as [mult|]; cbn.
        -- left. split; [split; [eexists; reflexivity | exact Hall] |].
           eexists. reflexivity.
        -- right. split; [| reflexivity].
           intros [[x Hx] _]. discriminate.
      * right. split; [| reflexivity]. intros [[x Hx] _]. discriminate.
    + right. split; [| reflexivity]. intros [_ Hall]. exact (Hnot Hall).
Qed.

Lemma cell_term_outcome tw cur tod cell :
  (covered tw tod (stats cell) /\
   exists t, cell_term tw cur (Some tod) cell = Ok t) \/
  (~ covered tw tod (stats cell) /\
   cell_term tw cur (Some tod) cell = Raise KeyError) \/
  tod = ""%string.
Proof.
  destruct tod as [|a tod]; [right; right; reflexivity |].
  unfold cell_term, cell_weighted_count. cbn [truthy].
  destruct (time_weighted_count_outcome tw (String a tod) (stats cell))
    as [[Hc [q ->]]|[Hc ->]].
  - left. split; [exact Hc | eexists; reflexivity].
  - right. left. split; [exact Hc | reflexivity].
Qed.

Lemma segment_risk_fold_outcome tw cur tod cells a :
  tod <> ""%string ->
  (Forall (fun c => covered tw tod (stats c)) cells /\
   exists t, foldl (segment_risk_step tw cur (Some tod)) (Ok a) cells = Ok t)
  \/
  (~ Forall (fun c => covered tw tod (stats c)) cells /\
   foldl (segment_risk_step tw cur (Some tod)) (Ok a) cells = Raise KeyError).
Proof.
  intros Htod. revert a.
  induction cells as [|c cells IH]; intros a; cbn [foldl].
  - left. split; [constructor | eexists; reflexivity].
  - rewrite segment_risk_step_ok.
    destruct (cell_term_outcome tw cur tod c)
      as [[Hc [t ->]]|[[Hc ->]|Hempty]]; [| | congruence]; cbn.
    + destruct (IH (a + t)) as [[Hall Hok]|[Hnot Hraise]].
      * left. split; [constructor; assumption | exact Hok].
      * right. split; [| exact Hraise].
        intros Hall. apply Hnot. inversion Hall; assumption.
    + right. split; [| apply segment_risk_fold_raise].
      intros Hall. apply Hc. inversion Hall; assumption.
Qed.

(** X6.  With a (non-empty) time of day, [calculate_segment_risk]
    returns a value exactly when every category counted in every cell
    has a row in the time-weight table with an entry for that time of
    day; otherwise it raises [KeyError]. *)
Theorem segment_risk_with_time_needs_every_category
    (tw : gmap string (gmap string Q)) (cells : list SafetyCell)
    (current_month : date) (tod : string) :
  tod <> ""%string ->
  (Forall
     (fun c => map_Forall
                 (fun cat _ => is_Some (tw !! cat ≫= (.!! tod))) (stats c))
     cells /\
   exists r, calculate_segment_risk tw cells current_month (Some tod) = Ok r)
  \/
  (~ Forall
       (fun c => map_Forall
                   (fun cat _ => is_Some (tw !! cat ≫= (.!! tod))) (stats c))
       cells /\
   calculate_segment_risk tw cells current_month (Some tod) = Raise KeyError).
Proof.
  intros Htod. unfold calculate_segment_risk.
  destruct (segment_risk_fold_outcome tw current_month tod cells 0.0 Htod)
    as [[Hall [t ->]]|[Hnot ->]].
  - left. split; [exact Hall |]. cbn. destruct cells; eexists; reflexivity.
  - right. split; [exact Hnot | reflexivity].
Qed.

(** X7.  With a time of day, the stored counts of a cell play no part:
    two cell lists that agree, cell by cell, on the month and the
    category histogram give the same segment risk, whatever their
    [crime_count_weighted] and [crime_count_total]. *)
Theorem segment_risk_with_time_ignores_stored_counts
    (tw : gmap string (gmap string Q)) (cells cells' : list SafetyCell)
    (current_month : date) (tod : string) :
  tod <> ""%string ->
  Forall2 (fun c c' => month c = month c' /\ stats c = stats c') cells cells' ->
  calculate_segment_risk tw cells current_month (Some tod)
  = calculate_segment_risk tw cells' current_month (Some tod).
Proof.
  intros Htod Hall. unfold calculate_segment_risk.
  assert (Hfold : forall acc,
            foldl (segment_risk_step tw current_month (Some tod)) acc cells
            = foldl (segment_risk_step tw current_month (Some tod)) acc cells').
  { induction Hall as [|c c' cells cells' [Hm Hs] _ IH]; intros acc;
      cbn [foldl]; [reflexivity |].
    rewrite IH. f_equal.
    unfold segment_risk_step, cell_weighted_count.
    destruct tod; [congruence |]. cbn [truthy]. rewrite Hm, Hs. reflexivity. }
  rewrite Hfold. pose proof (Forall2_length _ _ _ Hall) as Hlen.
  destruct cells, cells'; try discriminate Hlen; [reflexivity |].
  rewrite Hlen. reflexivity.
Qed.

Lemma cell_term_raises_key_error tw cur tod cell e :
  cell_term tw cur tod cell = Raise e -> e = KeyError.
Proof.
  unfold cell_term, cell_weighted_count.
  destruct (truthy tod) as [t|]; [| discriminate].
  destruct (time_weighted_count_outcome tw t (stats cell))
    as [[_ [q ->]]|[_ ->]]; cbn; congruence.
Qed.

#[local] Existing Instance res_eq_preorder.

Lemma segment_risk_step_proper tw cur tod cell acc acc' :
  res_eq acc acc' ->
  res_eq (segment_risk_step tw cur tod acc cell)
         (segment_risk_step tw cur tod acc' cell).
Proof.
  intros Hab. destruct acc as [a|e1], acc' as [b|e2]; cbn in Hab;
    try contradiction; [| subst e2; reflexivity].
  rewrite !segment_risk_step_ok.
  destruct (cell_term tw cur tod cell) as [t|e]; cbn; [| reflexivity].
  rewrite Hab. reflexivity.
Qed.

Lemma segment_risk_two_steps tw cur tod a c1 c2 :
  segment_risk_step tw cur tod (segment_risk_step tw cur tod (Ok a) c1) c2
  = (t1 ← cell_term tw cur tod c1;
     t2 ← cell_term tw cur tod c2;
     Ok (a + t1 + t2)).
Proof.
  rewrite (segment_risk_step_ok tw cur tod a c1).
  destruct (cell_term tw cur tod c1) as [t1|e1]; [| reflexivity].
  apply segment_risk_step_ok.
Qed.

Lemma segment_risk_step_comm tw cur tod acc c1 c2 :
  res_eq
    (segment_risk_step tw cur tod (segment_risk_step tw cur tod acc c1) c2)
    (segment_risk_step tw cur tod (segment_risk_step tw cur tod acc c2) c1).
Proof.
  destruct acc as [a|e]; [| reflexivity].
  rewrite !segment_risk_two_steps.
  destruct (cell_term tw cur tod c1) as [t1|e1] eqn:H1;
    destruct (cell_term tw cur tod c2) as [t2|e2] eqn:H2;
    cbn -[Qeq]; try reflexivity.
  - change (a + t1 + t2 == a + t2 + t1). ring.
  - apply cell_term_raises_key_error in H1, H2. congruence.
Qed.

Lemma segment_risk_fold_permutation tw cur tod cells cells' :
  cells ≡ₚ cells' ->
  forall acc acc',
    res_eq acc acc' ->
    res_eq (foldl (segment_risk_step tw cur tod) acc cells)
           (foldl (segment_risk_step tw cur tod) acc' cells').
Proof.
  induction 1 as [|c l l' _ IH|c1 c2 l|l1 l2 l3 _ IH1 _ IH2];
    intros acc acc' Hacc; cbn [foldl].
  - exact Hacc.
  - apply IH, segment_risk_step_proper, Hacc.
  - transitivity
      (foldl (segment_risk_step tw cur tod)
         (segment_risk_step tw cur tod
            (segment_risk_step tw cur tod acc' c1) c2) l).
    + assert (Hgen : forall a a', res_eq a a' ->
                res_eq (foldl (segment_risk_step tw cur tod) a l)
                       (foldl (segment_risk_step tw cur tod) a' l)).
      { clear. induction l as [|c l IH]; intros a a' Ha; cbn [foldl];
          [exact Ha | apply IH, segment_risk_step_proper, Ha]. }
      apply Hgen.
      etransitivity; [apply segment_risk_step_comm |].
      apply segment_risk_step_proper, segment_risk_step_proper, Hacc.
    + reflexivity.
  - etransitivity; [apply IH1, Hacc | apply IH2; reflexivity].
Qed.

(** X8.  The segment risk is a mean over a set of cells: listing the
    same cells in another order gives the same outcome, the same value
    up to [==] or the same error. *)
Theorem segment_risk_ignores_cell_order
    (tw : gmap string (gmap string Q)) (cells cells' : list SafetyCell)
    (current_month : date) (time_of_day : option string) :
  cells ≡ₚ cells' ->
  res_eq (calculate_segment_risk tw cells current_month time_of_day)
         (calculate_segment_risk tw cells' current_month time_of_day).
Proof.
  intros Hperm. unfold calculate_segment_risk.
  pose proof (segment_risk_fold_permutation tw current_month time_of_day
                cells cells' Hperm (Ok 0.0) (Ok 0.0)) as Hfold.
  pose proof (Permutation_length Hperm) as Hlen.
  assert (Hnil : cells = [] <-> cells' = []).
  { destruct cells, cells'; try discriminate Hlen; split; congruence. }
  destruct (foldl _ (Ok 0.0) cells) as [t|e];
    destruct (foldl _ (Ok 0.0) cells') as [t'|e'];
    specialize (Hfold ltac:(reflexivity)); cbn -[Qeq] in Hfold;
    try contradiction; [| exact Hfold].
  cbn [mbind result_bind].
  destruct cells as [|c cells], cells' as [|c' cells'];
    try (destruct Hnil; discriminate); [reflexivity |].
  change (t / inject_Z (Z.of_nat (length (c :: cells)))
          == t' / inject_Z (Z.of_nat (length (c' :: cells')))).
  rewrite Hlen, Hfold. reflexivity.
Qed.

Lemma sum_risk_fold_nonneg segments a :
  0 <= a -> Forall (fun seg => 0 <= risk_score seg) segments ->
  0 <= foldl (fun acc seg => acc + risk_score seg) a segments.
Proof.
  intros Ha Hall. revert a Ha.
  induction Hall as [|seg segments Hseg _ IH]; intros a Ha; cbn [foldl];
    [exact Ha |].
  apply IH. lra.
Qed.

(** X9.  On a non-empty segment list whose risks are non-negative,
    [score_route] returns a safety score between 0 and 100. *)
Theorem score_route_stays_in_range (segments : list RouteSegment) :
  segments <> [] ->
  Forall (fun seg => 0 <= risk_score seg) segments ->
  exists s, score_route segments = Ok s /\ 0 <= s /\ s <= 100.
Proof.
  intros Hne Hall. destruct segments as [|seg segments]; [congruence |].
  eexists. split; [reflexivity |]. cbn zeta.
  set (avg := sum_risk (seg :: segments)
              / inject_Z (Z.of_nat (length (seg :: segments)))).
  assert (Havg : 0 <= avg).
  { unfold avg, Qdiv. apply Qmult_le_0_compat.
    - apply sum_risk_fold_nonneg; [lra | exact Hall].
    - apply Qinv_le_0_compat. change 0 with (inject_Z 0).
      rewrite <- Zle_Qle. lia. }
  pose proof (ScoringExtras.risk_score_nonneg avg Havg) as Hlo.
  pose proof (ScoringExtras.risk_score_le_one avg) as Hhi.
  split; lra.
Qed.

Lemma segment_risk_with_time_needs_every_category_witness :
  exists r,
    calculate_segment_risk (CRIME_TIME_WEIGHTS ∅) [Samples.sample_cell]
      Samples.sample_month (Some "night"%string) = Ok r.
Proof.
  destruct (segment_risk_with_time_needs_every_category
              (CRIME_TIME_WEIGHTS ∅) [Samples.sample_cell]
              Samples.sample_month "night")
    as [[_ Hok]|[_ Hraise]]; [discriminate | exact Hok |].
  vm_compute in Hraise. discriminate Hraise.
Defined.

Lemma segment_risk_with_time_ignores_stored_counts_witness :
  calculate_segment_risk (CRIME_TIME_WEIGHTS ∅) [Samples.sample_cell]
    Samples.sample_month (Some "night"%string)
  = calculate_segment_risk (CRIME_TIME_WEIGHTS ∅) [Scenarios.restated_cell]
      Samples.sample_month (Some "night"%string).
Proof.
  apply (segment_risk_with_time_ignores_stored_counts
           (CRIME_TIME_WEIGHTS ∅) [Samples.sample_cell]
           [Scenarios.restated_cell] Samples.sample_month "night").
  - discriminate.
  - repeat constructor.
Defined.

Lemma segment_risk_ignores_cell_order_witness :
  res_eq
    (calculate_segment_risk (CRIME_TIME_WEIGHTS ∅)
       [Samples.sample_cell; Samples.violent_cell]
       Samples.sample_month (Some "night"%string))
    (calculate_segment_risk (CRIME_TIME_WEIGHTS ∅)
       [Samples.violent_cell; Samples.sample_cell]
       Samples.sample_month (Some "night"%string)).
Proof.
  apply (segment_risk_ignores_cell_order (CRIME_TIME_WEIGHTS ∅)
           [Samples.sample_cell; Samples.violent_cell]
           [Samples.violent_cell; Samples.sample_cell]).
  apply perm_swap.
Defined.

Lemma score_route_stays_in_range_witness :
  exists s,
    score_route [Samples.sample_segment; Scenarios.risky_segment] = Ok s /\
    0 <= s /\ s <= 100.
Proof.
  apply (score_route_stays_in_range
           [Samples.sample_segment; Scenarios.risky_segment]).
  - discriminate.
  - repeat constructor; vm_compute; discriminate.
Defined.

End SegmentRiskExtras.

Module SegmentationExtras.

Import Route SegmentationFacts PlanarFacts ScoringAux.

Lemma tails_at_least_one (segments : list LineString) :
  Forall (fun s => (2 <= length s)%nat) segments ->
  (length segments <= length (concat (tail <$> segments)))%nat.
Proof.
  induction 1 as [|s segments Hs _ IH]; cbn; [lia |].
  rewrite length_app. destruct s as [|p [|q s]]; cbn in *; lia.
Qed.

(** X10.  [segment_route] raises [IndexError] exactly on an empty
    coordinate sequence.  Otherwise it returns segments of at least two
    vertices each, at most one segment per vertex after the first; a
    single vertex gives no segment. *)
Theorem segment_route_outcome
    (length_of : LineString -> Q) (max_segment_length : Q)
    (route_line : LineString) :
  (route_line = [] /\
   segment_route_with length_of max_segment_length route_line
   = Raise IndexError) \/
  (exists segments,
      segment_route_with length_of max_segment_length route_line
      = Ok segments /\
      Forall (fun s => (2 <= length s)%nat) segments /\
      (length segments <= length route_line - 1)%nat /\
      (length route_line = 1%nat -> segments = [])).
Proof.
  destruct route_line as [|first rest]; [left; split; reflexivity |].
  right.
  destruct (walk_invariant length_of max_segment_length first rest)
    as [_ Hsplit _ _ _ Hsize _].
  eexists. split; [reflexivity |].
  split; [exact Hsize |].
  assert (Hcount : (length (segment_walk length_of max_segment_length
                              first rest).1 <= length rest)%nat).
  { pose proof (tails_at_least_one _ Hsize) as Hle.
    rewrite <- Hsplit at 2. rewrite length_app. lia. }
  split; [cbn [length]; lia |].
  intros Hone. cbn [length] in Hone.
  destruct (segment_walk _ _ _ _).1; [reflexivity | cbn in Hcount; lia].
Qed.

Section EveryEdge.

Variable length_of : LineString -> Q.
Variable max_segment_length : Q.
Hypothesis always_reached : forall run, max_segment_length <= length_of run.

Lemma step_closes_the_edge first pt segments :
  segment_step length_of max_segment_length (segments, [first]) pt
  = (segments ++ [[first; pt]], [pt]).
Proof.
  unfold segment_step. cbn [fst snd app].
  destruct (Qge_dec (length_of [first; pt]) max_segment_length)
    as [_|Hlt]; [reflexivity |].
  pose proof (always_reached [first; pt]). lra.
Qed.

Lemma walk_every_edge first rest segments :
  exists last_vertex,
    foldl (segment_step length_of max_segment_length) (segments, [first]) rest
    = (segments ++ edges first rest, [last_vertex]).
Proof.
  revert first segments.
  induction rest as [|pt rest IH]; intros first segments; cbn [foldl edges].
  - exists first. rewrite app_nil_r. reflexivity.
  - rewrite step_closes_the_edge.
    destruct (IH pt (segments ++ [[first; pt]])) as [last_vertex ->].
    exists last_vertex. rewrite <- app_assoc. reflexivity.
Qed.

End EveryEdge.

Lemma Qsqrt_nonneg (x : Q) : 0 <= Qsqrt x.
Proof.
  unfold Qsqrt, Qdiv. apply Qmult_le_0_compat.
  - change 0 with (inject_Z 0). rewrite <- Zle_Qle. apply Z.sqrt_nonneg.
  - vm_compute. discriminate.
Qed.

Lemma LineString_length_nonneg (coords : LineString) :
  0 <= LineString_length coords.
Proof.
  induction coords as [|p coords IH]; [cbn; lra |].
  destruct coords as [|q rest]; [cbn; lra |].
  change (0 <= distance p q + LineString_length (q :: rest)).
  pose proof (Qsqrt_nonneg
                ((fst q - fst p) * (fst q - fst p)
                 + (snd q - snd p) * (snd q - snd p))) as H.
  unfold distance. cbn zeta. lra.
Qed.

(** X11.  With a threshold of zero or less, every pair of consecutive
    vertices becomes a segment of its own: one segment per edge of the
    polyline, in order, and no vertex is left over. *)
Theorem zero_threshold_splits_at_every_vertex
    (first : point) (rest : list point) (max_segment_length : Q) :
  max_segment_length <= 0 ->
  segment_route (first :: rest) max_segment_length = Ok (edges first rest) /\
  length (edges first rest) = length rest.
Proof.
  intros Hmax. split.
  - unfold segment_route, segment_route_with, segment_walk.
    destruct (walk_every_edge LineString_length max_segment_length
                (fun run => Qle_trans _ _ _ Hmax
                              (LineString_length_nonneg run))
                first rest []) as [last_vertex ->].
    reflexivity.
  - clear. revert first. induction rest as [|pt rest IH]; intros first;
      cbn [edges length]; [reflexivity | rewrite IH; reflexivity].
Qed.

Lemma zero_threshold_splits_at_every_vertex_witness :
  segment_route Samples.tailed_route 0
  = Ok [[(-1.4044, 50.9097); (-1.4044, 50.9108)];
        [(-1.4044, 50.9108); (-1.4044, 50.9112)]].
Proof.
  destruct (zero_threshold_splits_at_every_vertex (-1.4044, 50.9097)
              [(-1.4044, 50.9108); (-1.4044, 50.9112)] 0) as [Hret _].
  - vm_compute. discriminate.
  - exact Hret.
Defined.

End SegmentationExtras.

Module AggregationExtras.

Import Aggregation AggregationFacts ScoringAux.

Lemma grid_total_insert_fresh (cells : gmap string SafetyCell) id c :
  cells !! id = None ->
  grid_total (<[id := c]> cells) = (grid_total cells + crime_count_total c)%Z.
Proof.
  intros Hfresh. unfold grid_total.
  rewrite map_fold_insert_L; [reflexivity | | exact Hfresh].
  intros; lia.
Qed.

Lemma grid_total_step m (cells : gmap string SafetyCell) incident :
  grid_total (aggregate_step m cells incident) = (grid_total cells + 1)%Z.
Proof.
  unfold aggregate_step.
  set (id := make_cell_id (h3_index incident) m).
  destruct (cells !! id) as [c|] eqn:Hc; cbn [default from_option id].
  - rewrite <- insert_delete_eq.
    rewrite grid_total_insert_fresh by apply lookup_delete_eq.
    rewrite <- (insert_delete_id cells id c Hc) at 2.
    rewrite grid_total_insert_fresh by apply lookup_delete_eq.
    cbn. lia.
  - rewrite grid_total_insert_fresh by exact Hc. cbn. lia.
Qed.

(** X12.  No event is lost or counted twice: over the whole grid, the
    monthly fold raises the sum of the buckets' [crime_count_total] by
    exactly the number of incidents streamed. *)
Theorem aggregation_counts_every_incident_once
    (m : date) (month_crimes : list CrimeIncident)
    (cells : gmap string SafetyCell) :
  grid_total (aggregate_month m month_crimes cells)
  = (grid_total cells + Z.of_nat (length month_crimes))%Z.
Proof.
  unfold aggregate_month. revert cells.
  induction month_crimes as [|i rest IH]; intros cells; cbn [foldl length].
  - lia.
  - rewrite IH, grid_total_step. lia.
Qed.

(** X13.  The fold writes the counters of a bucket and nothing else.  A
    bucket that is in the grid before the fold is there afterwards with
    the [cell_id], the geometry and the month it had, and its
    [crime_count_total] has risen by exactly the number of incidents
    whose key is the bucket's key; a key that no incident maps to holds
    what it held before. *)
Theorem aggregation_writes_only_the_counters
    (m : date) (month_crimes : list CrimeIncident)
    (cells : gmap string SafetyCell) :
  (forall id c,
      cells !! id = Some c ->
      exists c',
        aggregate_month m month_crimes cells !! id = Some c' /\
        cell_id c' = cell_id c /\ geom c' = geom c /\ month c' = month c /\
        crime_count_total c'
        = (crime_count_total c
           + Z.of_nat
               (length
                  (filter (fun i => make_cell_id (h3_index i) m = id)
                     month_crimes)))%Z) /\
  (forall id,
      Forall (fun i => make_cell_id (h3_index i) m <> id) month_crimes ->
      aggregate_month m month_crimes cells !! id = cells !! id).
Proof.
  unfold aggregate_month. split.
  - revert cells.
    induction month_crimes as [|i rest IH]; intros cells id c Hc;
      cbn [foldl].
    + exists c. cbn. repeat split; [exact Hc | lia].
    + rewrite filter_cons.
      destruct (decide (make_cell_id (h3_index i) m = id)) as [E|E].
      * destruct (IH (aggregate_step m cells i) id
                    (add_incident c (category i) (harm_weight i)))
          as (c' & Hc' & Hid & Hgeom & Hmonth & Htotal).
        { unfold aggregate_step. rewrite E, Hc. apply lookup_insert_eq. }
        exists c'. split; [exact Hc' |].
        cbn [add_incident cell_id geom month crime_count_total] in *.
        repeat split; try assumption. cbn [length]. lia.
      * destruct (IH (aggregate_step m cells i) id c)
          as (c' & Hc' & Hrest).
        { unfold aggregate_step. rewrite lookup_insert_ne by exact E.
          exact Hc. }
        exists c'. split; [exact Hc' | exact Hrest].
  - revert cells.
    induction month_crimes as [|i rest IH]; intros cells id Hall;
      cbn [foldl]; [reflexivity |].
    inversion Hall as [|? ? Hi Hrest]; subst.
    rewrite (IH _ id Hrest). unfold aggregate_step.
    rewrite lookup_insert_ne by exact Hi. reflexivity.
Qed.

Lemma append_cons (a : Ascii.ascii) (s t : string) :
  (String a s +:+ t)%string = String a (s +:+ t).
Proof. reflexivity. Qed.

Lemma append_length (s t : string) :
  String.length (s +:+ t) = (String.length s + String.length t)%nat.
Proof.
  induction s as [|a s IH]; [reflexivity |].
  rewrite append_cons. cbn [String.length]. rewrite IH. reflexivity.
Qed.

Lemma append_cancel_r (s1 s2 t : string) : s1 +:+ t = s2 +:+ t -> s1 = s2.
Proof.
  revert s2. induction s1 as [|a s1 IH]; intros [|b s2] H.
  - reflexivity.
  - apply (f_equal String.length) in H.
    rewrite !append_length in H. cbn [String.length] in H. lia.
  - apply (f_equal String.length) in H.
    rewrite !append_length in H. cbn [String.length] in H. lia.
  - rewrite !append_cons in H. injection H as -> H. f_equal. apply IH, H.
Qed.

Lemma make_cell_id_inj m h h' : make_cell_id h m = make_cell_id h' m -> h = h'.
Proof. unfold make_cell_id. apply append_cancel_r. Qed.

(** X14.  Within a month, buckets are told apart by the H3 index alone:
    two incidents map to the same bucket key exactly when their indices
    are equal; an incident of the same cell raises the bucket's total by
    one, an incident of another cell leaves the bucket untouched. *)
Theorem incidents_share_a_bucket_iff_same_cell
    (m : date) (cells : gmap string SafetyCell) (i j : CrimeIncident) :
  (make_cell_id (h3_index i) m = make_cell_id (h3_index j) m
   <-> h3_index i = h3_index j) /\
  (h3_index i = h3_index j ->
   crime_count_total
     <$> aggregate_step m cells j !! make_cell_id (h3_index i) m
   = Some (default 0%Z
             (crime_count_total <$> cells !! make_cell_id (h3_index i) m)
           + 1)%Z) /\
  (h3_index i <> h3_index j ->
   aggregate_step m cells j !! make_cell_id (h3_index i) m
   = cells !! make_cell_id (h3_index i) m).
Proof.
  split; [split; [apply make_cell_id_inj | congruence] |].
  split.
  - intros E. unfold aggregate_step. rewrite <- E, lookup_insert_eq.
    destruct (cells !! make_cell_id (h3_index i) m); reflexivity.
  - intros Hne. unfold aggregate_step. apply lookup_insert_ne.
    intros E. apply Hne. symmetry. exact (make_cell_id_inj _ _ _ E).
Qed.

Lemma Qplus_swap (w a b : Q) : w + a + b = w + b + a.
Proof.
  destruct w as [wn wd], a as [an ad], b as [bn bd].
  unfold Qplus. cbn [Qnum Qden]. f_equal; [| lia].
  rewrite !Pos2Z.inj_mul. ring.
Qed.

Lemma stats_incr_swap c1 c2 (st : gmap string Z) :
  stats_incr c1 (stats_incr c2 st) = stats_incr c2 (stats_incr c1 st).
Proof.
  destruct (decide (c1 = c2)) as [->|Hne]; [reflexivity |].
  unfold stats_incr.
  rewrite (lookup_insert_ne _ c2 c1) by congruence.
  rewrite (lookup_insert_ne _ c1 c2) by congruence.
  apply insert_insert_ne. congruence.
Qed.

Lemma add_incident_swap c cat1 w1 cat2 w2 :
  add_incident (add_incident c cat1 w1) cat2 w2
  = add_incident (add_incident c cat2 w2) cat1 w1.
Proof.
  unfold add_incident.
  cbn [cell_id geom month crime_count_total crime_count_weighted stats].
  f_equal; [apply Qplus_swap | apply stats_incr_swap].
Qed.

Section Order.

(** The boundary polygon is a function of the H3 index. *)
Variable boundary_of : string -> list point.
Variable m : date.

#[local] Abbreviation well_formed i :=
  (h3_boundary i = boundary_of (h3_index i)).

Lemma aggregate_step_swap (cells : gmap string SafetyCell) i j :
  well_formed i -> well_formed j ->
  aggregate_step m (aggregate_step m cells i) j
  = aggregate_step m (aggregate_step m cells j) i.
Proof.
  intros Hi Hj. unfold aggregate_step.
  set (idi := make_cell_id (h3_index i) m).
  set (idj := make_cell_id (h3_index j) m).
  destruct (decide (idi = idj)) as [E|Hne].
  - assert (Hh : h3_index i = h3_index j) by exact (make_cell_id_inj _ _ _ E).
    rewrite <- E, !lookup_insert_eq, !insert_insert_eq.
    cbn [default from_option id]. rewrite Hi, Hj, Hh.
    f_equal. apply add_incident_swap.
  - rewrite (lookup_insert_ne _ idi idj) by exact Hne.
    rewrite (lookup_insert_ne _ idj idi) by congruence.
    apply insert_insert_ne. congruence.
Qed.

(** X15.  The monthly fold does not depend on the order in which the
    incidents are streamed: when the boundary of an incident is a
    function of its H3 index, any reordering of the incidents gives the
    same grid, bucket by bucket (in the rational model, where the
    weighted sums are exact). *)
Theorem aggregation_ignores_incident_order
    (crimes crimes' : list CrimeIncident) :
  crimes ≡ₚ crimes' ->
  Forall (fun i => h3_boundary i = boundary_of (h3_index i)) crimes ->
  forall cells : gmap string SafetyCell,
    aggregate_month m crimes cells = aggregate_month m crimes' cells.
Proof.
  unfold aggregate_month.
  induction 1 as [|i l l' Hperm IH|i j l|l1 l2 l3 H12 IH1 H23 IH2];
    intros Hall cells; cbn [foldl].
  - reflexivity.
  - inversion Hall; subst. apply IH. assumption.
  - inversion Hall as [|? ? Hj Hrest]; subst.
    inversion Hrest as [|? ? Hi _]; subst.
    rewrite (aggregate_step_swap cells i j) by assumption. reflexivity.
  - rewrite IH1 by exact Hall. apply IH2. rewrite <- H12. exact Hall.
Qed.

End Order.

Lemma aggregation_ignores_incident_order_witness :
  aggregate_month Samples.sample_month Samples.sample_crimes ∅
  = aggregate_month Samples.sample_month Scenarios.swapped_crimes ∅.
Proof.
  apply (aggregation_ignores_incident_order (fun _ => [])
           Samples.sample_month Samples.sample_crimes
           Scenarios.swapped_crimes).
  - apply perm_swap.
  - repeat constructor.
Defined.

End AggregationExtras.

(** * The map page and the dashboard *)

Module MapPageExtras.

Import Scoring Frontend MapPage ScoringFacts.

(** X16.  The history page's risk class against the map's colour bands,
    score by score: they agree above 75, between 50 and 70 and below
    40; for scores in [70, 75) the class is "low" where the map shows
    yellow, and in [40, 50) it is "medium" where the map shows red. *)
Theorem risk_class_against_colour_bands (score : Q) :
  (75 <= score ->
   getRiskClass score = "low"%string /\ route_color score = "#22c55e"%string
   /\ (heatmap_style (Some score)).1 = "#16a34a"%string) /\
  (70 <= score -> score < 75 ->
   getRiskClass score = "low"%string /\ route_color score = "#eab308"%string
   /\ (heatmap_style (Some score)).1 = "#ca8a04"%string) /\
  (50 <= score -> score < 70 ->
   getRiskClass score = "medium"%string
   /\ route_color score = "#eab308"%string
   /\ (heatmap_style (Some score)).1 = "#ca8a04"%string) /\
  (40 <= score -> score < 50 ->
   getRiskClass score = "medium"%string
   /\ route_color score = "#ef4444"%string
   /\ (heatmap_style (Some score)).1 = "#dc2626"%string) /\
  (score < 40 ->
   getRiskClass score = "high"%string /\ route_color score = "#ef4444"%string
   /\ (heatmap_style (Some score)).1 = "#dc2626"%string).
Proof.
  unfold getRiskClass, route_color, heatmap_style. cbn [default from_option id].
  destruct (Qge_dec score 70), (Qge_dec score 40), (Qge_dec score 75),
    (Qge_dec score 50), (Qlt_le_dec score 50), (Qlt_le_dec score 75);
    repeat split; intros; try reflexivity; lra.
Qed.

(** X17.  The colour of a route segment against the tiers of the risk
    function, for a non-negative segment risk: green exactly in the
    "very low" tier (risk score at most 0.2), red as soon as the risk
    score exceeds one third. *)
Theorem segment_colour_against_risk_tiers (riskScore : Q) :
  0 <= riskScore ->
  (segment_color riskScore = "#22c55e"%string
   <-> calculate_risk_score riskScore <= 0.2) /\
  (segment_color riskScore = "#ef4444"%string
   <-> 1 # 3 < calculate_risk_score riskScore).
Proof.
  intros Hr.
  assert (Hgreen : riskScore <= 5 <-> calculate_risk_score riskScore <= 0.2).
  { split; intros H; [| apply Qnot_lt_le; intros Hlt; revert H];
      risk_cases riskScore; try qarith; resolve_min; qarith. }
  assert (Hred : 15 < riskScore <-> 1 # 3 < calculate_risk_score riskScore).
  { split; intros H; [| apply Qnot_le_lt; intros Hle; revert H];
      risk_cases riskScore; try qarith; resolve_min; qarith. }
  rewrite <- Hgreen, <- Hred. unfold segment_color.
  destruct (Qlt_le_dec 15 riskScore), (Qlt_le_dec 10 riskScore),
    (Qlt_le_dec 5 riskScore);
    (split; split; intros H; try discriminate H; try reflexivity; lra).
Qed.

Lemma coordsPerSegment_spec (n total : nat) :
  (0 < total)%nat ->
  (Z.of_nat n <= coordsPerSegment n total * Z.of_nat total)%Z /\
  ((coordsPerSegment n total - 1) * Z.of_nat total < Z.of_nat n)%Z.
Proof.
  intros Htotal. unfold coordsPerSegment.
  set (x := inject_Z (Z.of_nat n) / inject_Z (Z.of_nat total)).
  assert (Ht : 0 < inject_Z (Z.of_nat total)).
  { change 0 with (inject_Z 0). rewrite <- Zlt_Qlt. lia. }
  assert (Hx : x * inject_Z (Z.of_nat total) == inject_Z (Z.of_nat n)).
  { unfold x. field. intros E. rewrite E in Ht. revert Ht. apply Qlt_irrefl. }
  pose proof (Qle_ceiling x) as Hup.
  pose proof (Qceiling_lt x) as Hlow.
  split.
  - rewrite Zle_Qle, inject_Z_mult, <- Hx.
    apply Qmult_le_compat_r; [exact Hup | apply Qlt_le_weak, Ht].
  - rewrite Zlt_Qlt, inject_Z_mult, <- Hx.
    apply Qmult_lt_compat_r; [exact Ht | exact Hlow].
Qed.

Lemma coordsPerSegment_pos (n total : nat) :
  (0 < total)%nat -> (0 < n)%nat -> (1 <= coordsPerSegment n total)%Z.
Proof.
  intros Htotal Hn.
  destruct (coordsPerSegment_spec n total Htotal) as [Hup _]. nia.
Qed.

Lemma length_segmentCoords (coordinates : list point) (total k : nat) :
  (0 < total)%nat -> coordinates <> [] ->
  let c := coordsPerSegment (length coordinates) total in
  let n := Z.of_nat (length coordinates) in
  Z.of_nat (length (segmentCoords coordinates total k))
  = Z.max 0 (Z.min (Z.min ((Z.of_nat k + 1) * c) n + 1) n - Z.of_nat k * c).
Proof.
  intros Htotal Hne. cbn zeta. unfold segmentCoords, js_slice.
  assert (Hn : (0 < length coordinates)%nat)
    by (destruct coordinates; [congruence | cbn; lia]).
  pose proof (coordsPerSegment_pos _ _ Htotal Hn) as Hc.
  rewrite length_fmap, length_take, length_drop.
  set (c := coordsPerSegment (length coordinates) total) in *.
  assert (Hk : (0 <= Z.of_nat k * c)%Z) by nia.
  replace ((Z.of_nat k + 1) * c)%Z with (Z.of_nat k * c + c)%Z by ring.
  generalize dependent (Z.of_nat k * c)%Z.
  intros a Ha. unfold point in *. lia.
Qed.

(** X18.  Which segments of the selected route are drawn: with [n]
    coordinates and slices of [c = ceil(n / segments)] coordinates,
    segment [k] gets a polyline exactly when [k * c + 1 < n].  Segments
    from index [ceil((n - 1) / c)] on are silently left out, whatever
    their risk. *)
Theorem segment_is_drawn_iff_its_slice_has_an_edge
    (coordinates : list point) (total k : nat) (segment : RouteSegment) :
  (0 < total)%nat -> coordinates <> [] ->
  (is_Some (segment_layer coordinates total k segment)
   <-> (Z.of_nat k * coordsPerSegment (length coordinates) total + 1
        < Z.of_nat (length coordinates))%Z).
Proof.
  intros Htotal Hne.
  pose proof (length_segmentCoords coordinates total k Htotal Hne) as Hlen.
  cbn zeta in Hlen.
  assert (Hn : (0 < length coordinates)%nat)
    by (destruct coordinates; [congruence | cbn; lia]).
  pose proof (coordsPerSegment_pos _ _ Htotal Hn) as Hc.
  unfold segment_layer. cbn zeta.
  destruct (decide (1 < length (segmentCoords coordinates total k))%nat)
    as [Hdrawn|Hnot]; split; intros H.
  - nia.
  - eexists. reflexivity.
  - destruct H as [x Hx]. discriminate.
  - exfalso. apply Hnot. nia.
Qed.

(** X19.  The polylines of the selected route leave no gap: every pair
    of consecutive coordinates of the route is a pair of consecutive
    vertices, swapped to (lat, lng), of the polyline of some segment
    index below the number of segments, and that polyline is drawn. *)
Theorem every_edge_of_the_route_is_drawn
    (coordinates : list point) (total i : nat) (p q : point) :
  (0 < total)%nat ->
  coordinates !! i = Some p -> coordinates !! S i = Some q ->
  exists k j,
    (k < total)%nat /\
    segmentCoords coordinates total k !! j = Some (snd p, fst p) /\
    segmentCoords coordinates total k !! S j = Some (snd q, fst q) /\
    forall segment, is_Some (segment_layer coordinates total k segment).
Proof.
  intros Htotal Hp Hq.
  pose proof (lookup_lt_Some _ _ _ Hq) as Hi.
  assert (Hne : coordinates <> []) by (intros ->; discriminate).
  assert (Hn : (0 < length coordinates)%nat) by lia.
  pose proof (coordsPerSegment_pos _ _ Htotal Hn) as Hc.
  destruct (coordsPerSegment_spec (length coordinates) total Htotal)
    as [Hup _].
  set (c := coordsPerSegment (length coordinates) total) in *.
  set (k := Z.to_nat (Z.of_nat i / c)).
  assert (Hk : (Z.of_nat k * c <= Z.of_nat i < (Z.of_nat k + 1) * c)%Z).
  { unfold k. rewrite Z2Nat.id by (apply Z.div_pos; lia).
    pose proof (Z.mul_div_le (Z.of_nat i) c ltac:(lia)).
    pose proof (Z.mul_succ_div_gt (Z.of_nat i) c ltac:(lia)). lia. }
  exists k, (i - Z.to_nat (Z.of_nat k * c))%nat.
  assert (Hlook : forall d, (d <= 1)%nat ->
            segmentCoords coordinates total k
              !! (i - Z.to_nat (Z.of_nat k * c) + d)%nat
            = (fun coord => (snd coord, fst coord))
                <$> coordinates !! (i + d)%nat).
  { intros d Hd. unfold segmentCoords, js_slice. fold c.
    rewrite list_lookup_fmap, lookup_take_lt by lia.
    rewrite lookup_drop. f_equal. f_equal. lia. }
  split; [nia |]. split; [| split].
  - specialize (Hlook 0%nat ltac:(lia)). rewrite !Nat.add_0_r in Hlook.
    rewrite Hlook. unfold point in *. rewrite Hp. reflexivity.
  - specialize (Hlook 1%nat ltac:(lia)).
    replace (i - Z.to_nat (Z.of_nat k * c) + 1)%nat
      with (S (i - Z.to_nat (Z.of_nat k * c))) in Hlook by lia.
    replace (i + 1)%nat with (S i) in Hlook by lia.
    rewrite Hlook. unfold point in *. rewrite Hq. reflexivity.
  - intros segment.
    apply segment_is_drawn_iff_its_slice_has_an_edge; [lia | exact Hne |].
    fold c. lia.
Qed.

Lemma sorted_by_index_unique (l1 l2 : list RouteSegment) :
  StronglySorted by_index l1 -> StronglySorted by_index l2 ->
  l1 ≡ₚ l2 -> NoDup (segment_index <$> l1) -> l1 = l2.
Proof.
  intros H1. revert l2.
  induction H1 as [|a l1 Hs1 IH Ha]; intros l2 H2 Hperm Hnodup.
  - symmetry. apply Permutation_nil_r. symmetry. exact Hperm.
  - destruct H2 as [|b l2 Hs2 Hb].
    { apply Permutation_nil_r in Hperm. discriminate. }
    assert (Hab : a = b).
    { destruct (decide (segment_index a = segment_index b)) as [E|N].
      - assert (Hin : b ∈ a :: l1) by (rewrite Hperm; left).
        apply elem_of_cons in Hin as [->|Hin]; [reflexivity |].
        cbn in Hnodup. apply NoDup_cons in Hnodup as [Hnotin _].
        exfalso. apply Hnotin. rewrite E.
        apply list_elem_of_fmap. exists b. split; [reflexivity | exact Hin].
      - exfalso.
        assert (Hina : a ∈ b :: l2) by (rewrite <- Hperm; left).
        assert (Hinb : b ∈ a :: l1) by (rewrite Hperm; left).
        apply elem_of_cons in Hina as [->|Hina]; [congruence |].
        apply elem_of_cons in Hinb as [->|Hinb]; [congruence |].
        rewrite Forall_forall in Ha, Hb.
        specialize (Ha b Hinb). specialize (Hb a Hina).
        unfold by_index in Ha, Hb. lia. }
    subst b. f_equal. apply IH; [exact Hs2 | |].
    + apply (Permutation_cons_inv Hperm).
    + cbn in Hnodup. apply NoDup_cons in Hnodup as [_ Hnodup]. exact Hnodup.
Qed.

Lemma insert_by_index_perm (s : RouteSegment) (l : list RouteSegment) :
  insert_by_index s l ≡ₚ s :: l.
Proof.
  induction l as [|t rest IH]; cbn [insert_by_index]; [reflexivity |].
  destruct (decide (by_index s t)); [reflexivity |].
  rewrite IH. apply perm_swap.
Qed.

Lemma insert_by_index_sorted (s : RouteSegment) (l : list RouteSegment) :
  StronglySorted by_index l -> StronglySorted by_index (insert_by_index s l).
Proof.
  induction 1 as [|t rest Hsorted IH Hall]; cbn [insert_by_index].
  - repeat constructor.
  - destruct (decide (by_index s t)) as [Hle|Hgt].
    + constructor; [constructor; assumption |].
      constructor; [exact Hle |].
      eapply Forall_impl; [exact Hall |].
      unfold by_index in *. cbn beta. intros; lia.
    + constructor; [exact IH |].
      rewrite insert_by_index_perm. constructor; [| exact Hall].
      unfold by_index in *. lia.
Qed.

Lemma sortedSegments_perm (segs : list RouteSegment) :
  sortedSegments segs ≡ₚ segs.
Proof.
  induction segs as [|s segs IH]; [reflexivity |].
  cbn [sortedSegments foldr]. rewrite insert_by_index_perm.
  constructor. exact IH.
Qed.

Lemma sortedSegments_sorted (segs : list RouteSegment) :
  StronglySorted by_index (sortedSegments segs).
Proof.
  induction segs as [|s segs IH]; [constructor |].
  cbn [sortedSegments foldr]. apply insert_by_index_sorted, IH.
Qed.

(** The sort is stable: the segments of one index keep the order of the
    response. *)
Lemma sortedSegments_stable (segs : list RouteSegment) (index : Z) :
  filter (fun s => segment_index s = index) (sortedSegments segs)
  = filter (fun s => segment_index s = index) segs.
Proof.
  induction segs as [|s segs IH]; [reflexivity |].
  cbn [sortedSegments foldr]. fold (sortedSegments segs).
  rewrite (filter_cons _ s segs), <- IH.
  generalize (sortedSegments segs) as l. clear IH.
  induction l as [|t rest IHl]; cbn [insert_by_index]; [reflexivity |].
  destruct (decide (by_index s t)) as [Hle|Hgt]; [reflexivity |].
  rewrite (filter_cons _ t), IHl, (filter_cons _ t rest).
  unfold by_index in Hgt.
  destruct (decide (segment_index t = index)),
    (decide (segment_index s = index)); try reflexivity; lia.
Qed.

(** X20.  When the segment indices of the selected route are distinct,
    the order in which the response lists the segments does not matter:
    the sort puts them in the same order, and the same layers are
    drawn. *)
Theorem segment_layers_ignore_response_order
    (route route' : SafeRoute) (segs segs' : list RouteSegment)
    (routeId : string) :
  segments route = Some segs -> segments route' = Some segs' ->
  coordinates route' = coordinates route ->
  safety_score route' == safety_score route ->
  segs ≡ₚ segs' -> NoDup (segment_index <$> segs) ->
  sortedSegments segs = sortedSegments segs' /\
  selected_layers route routeId = selected_layers route' routeId.
Proof.
  intros Hsegs Hsegs' Hcoords Hscore Hperm Hnodup.
  assert (Hsorted : sortedSegments segs = sortedSegments segs').
  { apply sorted_by_index_unique.
    - apply sortedSegments_sorted.
    - apply sortedSegments_sorted.
    - rewrite !sortedSegments_perm. exact Hperm.
    - rewrite sortedSegments_perm. exact Hnodup. }
  split; [exact Hsorted |].
  unfold selected_layers. rewrite Hsegs, Hsegs', Hcoords.
  cbn [default from_option id]. rewrite <- Hsorted.
  assert (Hlen : length segs' = length segs)
    by (symmetry; apply Permutation_length, Hperm).
  rewrite Hlen.
  assert (Hcolor : route_color (safety_score route')
                   = route_color (safety_score route)).
  { unfold route_color.
    destruct (Qlt_le_dec (safety_score route') 50),
      (Qlt_le_dec (safety_score route) 50),
      (Qlt_le_dec (safety_score route') 75),
      (Qlt_le_dec (safety_score route) 75); try reflexivity; lra. }
  rewrite Hcolor. reflexivity.
Qed.

Lemma route_id_of_first (route : SafeRoute) :
  route_id_of route 0
  = match route_id route with
    | EmptyString => "route-0"%string
    | id => id
    end.
Proof. unfold route_id_of. destruct (route_id route); reflexivity. Qed.

(** X21.  After a successful search the first route is the selected
    one: the id that [findSafeRoutes] stores, with its [route-0]
    fallback, is the id under which [selectedRoute] and [renderRoutes]
    look the first route up, so the side panel shows the first route
    and the map draws it as selected, before all other layers. *)
Theorem first_route_is_selected_after_search
    (first : SafeRoute) (rest : list SafeRoute) (previous : option string) :
  let state := findSafeRoutes_state (first :: rest) previous in
  state.1 = first :: rest /\
  state.2 = Some (route_id_of first 0) /\
  selectedRoute state.1 state.2 = Some first /\
  exists others,
    renderRoutes state.1 state.2
    = selected_layers first (route_id_of first 0) ++ others.
Proof.
  cbn zeta. unfold findSafeRoutes_state. cbn [fst snd].
  rewrite <- route_id_of_first.
  split; [reflexivity |]. split; [reflexivity |]. split.
  - unfold selectedRoute. cbn [find_route].
    destruct (decide (Some (route_id_of first 0)
                      = Some (route_id_of first 0))); congruence.
  - unfold renderRoutes. cbn [imap mjoin list_join]. cbn zeta.
    destruct (decide (Some (route_id_of first 0)
                      = Some (route_id_of first 0))); [| congruence].
    eexists. reflexivity.
Qed.

Lemma segment_colour_against_risk_tiers_witness :
  segment_color 16.0 = "#ef4444"%string /\
  1 # 3 < calculate_risk_score 16.0.
Proof.
  destruct (segment_colour_against_risk_tiers 16.0) as [_ [Hred _]].
  - vm_compute. discriminate.
  - split; [reflexivity | apply Hred; reflexivity].
Defined.

Lemma segment_is_drawn_iff_its_slice_has_an_edge_witness :
  is_Some (segment_layer Samples.tailed_route 2 0 Samples.sample_segment) /\
  segment_layer Samples.tailed_route 2 1 Scenarios.risky_segment = None.
Proof.
  split.
  - apply (segment_is_drawn_iff_its_slice_has_an_edge
             Samples.tailed_route 2 0 Samples.sample_segment);
      [lia | discriminate | vm_compute; reflexivity].
  - destruct (segment_is_drawn_iff_its_slice_has_an_edge
                Samples.tailed_route 2 1 Scenarios.risky_segment)
      as [Hdrawn _]; [lia | discriminate |].
    destruct (segment_layer Samples.tailed_route 2 1
                Scenarios.risky_segment) as [polyline|]; [| reflexivity].
    assert (Hsome : is_Some (Some polyline)) by (eexists; reflexivity).
    specialize (Hdrawn Hsome). vm_compute in Hdrawn. discriminate Hdrawn.
Defined.

Lemma every_edge_of_the_route_is_drawn_witness :
  exists k j,
    (k < 2)%nat /\
    segmentCoords Samples.tailed_route 2 k !! j = Some (50.9108, -1.4044) /\
    segmentCoords Samples.tailed_route 2 k !! S j
    = Some (50.9112, -1.4044) /\
    forall segment,
      is_Some (segment_layer Samples.tailed_route 2 k segment).
Proof.
  apply (every_edge_of_the_route_is_drawn Samples.tailed_route 2 1
           (-1.4044, 50.9108) (-1.4044, 50.9112));
    [lia | reflexivity | reflexivity].
Defined.

Lemma segment_layers_ignore_response_order_witness :
  selected_layers Scenarios.sample_route "fastest"
  = selected_layers Scenarios.reversed_route "fastest".
Proof.
  destruct (segment_layers_ignore_response_order
              Scenarios.sample_route Scenarios.reversed_route
              [Samples.sample_segment; Scenarios.risky_segment]
              [Scenarios.risky_segment; Samples.sample_segment] "fastest")
    as [_ Hlayers];
    [reflexivity | reflexivity | reflexivity | reflexivity
     | apply perm_swap | | exact Hlayers].
  apply NoDup_cons. split; [| apply NoDup_singleton].
  intros Hin. apply list_elem_of_singleton in Hin. discriminate Hin.
Defined.

End MapPageExtras.

Module DashboardExtras.

Import Dashboard.

Lemma history_sum_bounds (lo hi : Q) (history : list RouteHistoryItem)
    (acc : Q) (n : nat) :
  Forall (fun item => lo <= safety_score_best item
                      /\ safety_score_best item <= hi) history ->
  inject_Z (Z.of_nat n) * lo <= acc -> acc <= inject_Z (Z.of_nat n) * hi ->
  let total :=
    foldl (fun acc item => acc + safety_score_best item) acc history in
  inject_Z (Z.of_nat (n + length history)) * lo <= total /\
  total <= inject_Z (Z.of_nat (n + length history)) * hi.
Proof.
  cbn zeta. intros Hall. revert acc n.
  induction Hall as [|item history [Hlo Hhi] _ IH]; intros acc n Ha Hb.
  - cbn. rewrite Nat.add_0_r. split; assumption.
  - cbn [foldl length].
    replace (n + S (length history))%nat with (S n + length history)%nat
      by lia.
    apply IH.
    + rewrite Nat2Z.inj_succ. unfold Z.succ. rewrite inject_Z_plus.
      change (inject_Z 1) with 1.
      lra.
    + rewrite Nat2Z.inj_succ. unfold Z.succ. rewrite inject_Z_plus.
      change (inject_Z 1) with 1.
      lra.
Qed.

(** X22.  The average safety score of the dashboard lies between any
    two bounds that hold for every item of a non-empty history; for an
    empty history it is 0, which the page then shows among the high-risk
    scores. *)
Theorem average_safety_score_is_bounded
    (history : list RouteHistoryItem) (lo hi : Q) :
  Forall (fun item => lo <= safety_score_best item
                      /\ safety_score_best item <= hi) history ->
  (history <> [] ->
   lo <= avgSafetyScore history /\ avgSafetyScore history <= hi) /\
  (history = [] ->
   avgSafetyScore history == 0
   /\ Frontend.getRiskClass (avgSafetyScore history) = "high"%string).
Proof.
  intros Hall. split.
  - intros Hne. unfold avgSafetyScore.
    destruct (decide (0 < length history)%nat) as [Hpos|Hzero];
      [| destruct history; [congruence | cbn in Hzero; lia]].
    destruct (history_sum_bounds lo hi history 0 0 Hall) as [Hlo Hhi];
      [change (inject_Z (Z.of_nat 0)) with 0; lra ..|].
    cbn [Nat.add] in Hlo, Hhi.
    set (total := foldl _ 0 history) in *.
    set (n := inject_Z (Z.of_nat (length history))) in *.
    assert (Hn : 0 < n).
    { unfold n. change 0 with (inject_Z 0). rewrite <- Zlt_Qlt. lia. }
    split.
    + apply Qle_shift_div_l; [exact Hn | lra].
    + apply Qle_shift_div_r; [exact Hn | lra].
  - intros ->. split; reflexivity.
Qed.

Lemma average_safety_score_is_bounded_witness :
  60 <= avgSafetyScore Scenarios.sample_history /\
  avgSafetyScore Scenarios.sample_history <= 80.
Proof.
  destruct (average_safety_score_is_bounded Scenarios.sample_history 60 80)
    as [Hbounds _].
  - repeat constructor; vm_compute; discriminate.
  - apply Hbounds. discriminate.
Defined.

End DashboardExtras.

(** * The API client *)

Module ApiExtras.

Import Api.

Section Client.

Context {Json : Type}.
Variable as_tokens : Json -> AuthTokens.

(** The request of an [apiFetch] that carries no token. *)
#[local] Abbreviation plain_request w endpoint options :=
  {| url := API_BASE_URL w +:+ endpoint; init := options;
     headers := <["Content-Type" := "application/json"]> ∅ |}.

(** The request of an [apiFetch] that carries [tokens]. *)
#[local] Abbreviation bearer_request w endpoint options tokens :=
  {| url := API_BASE_URL w +:+ endpoint; init := options;
     headers := <["Content-Type" := "application/json"]>
                  (<["Authorization" := bearer tokens]> ∅) |}.

(** What [apiFetch] makes of the final response. *)
#[local] Abbreviation settle response w :=
  (if ok response then (Return response, w)
   else (Throw (ApiError (status response) (statusText response)
                         (json response)), w)).

Ltac run :=
  unfold apiFetch, apiFetch_with, response_json, fetch, getTokens, setTokens,
    clearTokens, try_catch, throw, mbind, M_bind, mret, M_ret;
  cbn beta iota zeta.

Lemma apiFetch_plain (refresh : string -> M AuthTokens)
    (endpoint : string) (options : RequestInit) (w : World Json) :
  apiFetch_with refresh endpoint options false w
  = match network w with
    | Some response :: _ =>
      settle response (sent (plain_request w endpoint options) w)
    | _ => (Throw TypeError, sent (plain_request w endpoint options) w)
    end.
Proof.
  run. destruct (network w) as [|[response|] rest]; try reflexivity.
  rewrite andb_false_r. destruct (ok response); reflexivity.
Qed.

(** X23.  A request without authentication is one [fetch] and nothing
    else: whatever function stands for the refresh, it is not called;
    one request goes out, with the content type as its only header;
    the token store and the user are left alone; the response is
    returned when its status is in 200-299, an [ApiError] with its
    status is thrown otherwise, and a failed [fetch] is rethrown.  So
    cutting the cycle between [apiFetch] and [refreshToken] at the
    inner call loses nothing. *)
Theorem request_without_auth_is_one_fetch
    (refresh : string -> M AuthTokens)
    (endpoint : string) (options : RequestInit) (w : World Json) :
  let result := apiFetch_with refresh endpoint options false w in
  result = apiFetch as_tokens endpoint options false w /\
  requests result.2 = requests w ++ [plain_request w endpoint options] /\
  network result.2 = tail (network w) /\
  localStorage result.2 = localStorage w /\
  user result.2 = user w /\
  result.1 = match network w with
             | Some response :: _ =>
               if ok response then Return response
               else Throw (ApiError (status response) (statusText response)
                                    (json response))
             | _ => Throw TypeError
             end.
Proof.
  cbn zeta. unfold apiFetch. rewrite !apiFetch_plain.
  split; [reflexivity |].
  destruct (network w) as [|[response|] rest] eqn:Hnet; cbn [fst snd];
    try destruct (ok response); cbn [fst snd];
    unfold sent; cbn [requests network localStorage user];
    rewrite Hnet; repeat split.
Qed.

(** X24.  [apiFetch] hands a response to its caller only when the
    status is in 200-299; in particular a 401 is never returned, with
    or without a refresh. *)
Theorem apiFetch_returns_only_ok_responses
    (endpoint : string) (options : RequestInit) (requiresAuth : bool)
    (w w' : World Json) (response : Response Json) :
  apiFetch as_tokens endpoint options requiresAuth w = (Return response, w') ->
  ok response = true /\ status response <> 401%Z.
Proof.
  intros Hrun.
  assert (Hok : ok response = true).
  { revert Hrun. run.
    repeat (case_match; simplify_eq; try discriminate);
      intros ?; simplify_eq; assumption. }
  split; [exact Hok |].
  intros H401. unfold ok in Hok. rewrite H401 in Hok.
  apply bool_decide_eq_true in Hok. lia.
Qed.

(** The request that [refreshToken] sends. *)
#[local] Abbreviation refresh_request w tokens :=
  (plain_request w "/api/v1/auth/refresh"
     {| method := Some "POST";
        body := RefreshBody (refresh_token tokens) |}).

Ltac world :=
  unfold sent, with_localStorage, with_user, API_BASE_URL;
  cbn [window localStorage network requests NEXT_PUBLIC_API_BASE_URL user
       fst snd tail].

Ltac known :=
  repeat match goal with
  | H : window _ = _ |- _ => rewrite H
  | H : localStorage _ !! _ = _ |- _ => rewrite H
  | H : network _ = _ |- _ => rewrite H
  | H : status _ = _ |- _ => rewrite H
  | H : nonempty _ = _ |- _ => rewrite H
  | H : ok _ = _ |- _ => rewrite H
  | H : json _ = _ |- _ => rewrite H
  end.

Lemma refreshToken_run (tokens : AuthTokens) (w : World Json) :
  refreshToken as_tokens (refresh_token tokens) w
  = match network w with
    | Some response :: _ =>
      if ok response then
        match json response with
        | Some value =>
          (Return (as_tokens value), sent (refresh_request w tokens) w)
        | None => (Throw SyntaxError, sent (refresh_request w tokens) w)
        end
      else (Throw (ApiError (status response) (statusText response)
                            (json response)),
            sent (refresh_request w tokens) w)
    | _ => (Throw TypeError, sent (refresh_request w tokens) w)
    end.
Proof.
  unfold refreshToken, mbind, M_bind. rewrite apiFetch_plain.
  destruct (network w) as [|[response|] rest]; try reflexivity.
  destruct (ok response); [| reflexivity].
  unfold response_json. destruct (json response); reflexivity.
Qed.

Ltac steps :=
  repeat (progress (known; rewrite ?refreshToken_run;
                    rewrite ?(bool_decide_eq_true_2 (401 = 401)%Z eq_refl);
                    cbn beta iota; cbn [andb]; world)).

Ltac steps' :=
  repeat (progress (steps;
                    rewrite ?andb_false_r, ?lookup_insert_eq,
                      ?lookup_delete_eq;
                    repeat match goal with
                    | H : status _ <> _ |- _ =>
                      rewrite (bool_decide_eq_false_2 _ H)
                    end;
                    cbn beta iota; cbn [andb])).

Ltac branches :=
  repeat (match goal with
          | |- context [bool_decide (status ?r = 401%Z)] =>
            destruct (bool_decide (status r = 401%Z)) eqn:?
          | |- context [if nonempty ?x then _ else _] =>
            destruct (nonempty x) eqn:?
          | |- context [if ok ?r then _ else _] => destruct (ok r) eqn:?
          | |- context [match json ?r with _ => _ end] =>
            destruct (json r) eqn:?
          | |- context [match ?l with [] => _ | _ :: _ => _ end] =>
            is_var l; destruct l as [|[?|] ?]
          end; steps').

(** X25.  A 401 with a refresh token in the store leads to a refresh;
    when the refresh fails, the tokens are removed from the store and
    the caller gets the error of the refresh, not the 401 of its own
    request: a [TypeError] when the refresh request fails, an
    [ApiError] with the status of the refresh response when that is not
    in 200-299, a [SyntaxError] when its body cannot be read.  Two
    requests have gone out, the second without an [Authorization]
    header. *)
Theorem failed_refresh_clears_the_tokens
    (endpoint : string) (options : RequestInit) (w : World Json)
    (tokens : AuthTokens) (first : Response Json)
    (rest : list (option (Response Json))) :
  window w = true -> localStorage w !! TOKEN_KEY = Some tokens ->
  nonempty (refresh_token tokens) = true ->
  network w = Some first :: rest -> status first = 401%Z ->
  match rest with
  | Some second :: _ => ok second = false \/ json second = None
  | _ => True
  end ->
  let result := apiFetch as_tokens endpoint options true w in
  result.1 = Throw match rest with
                   | Some second :: _ =>
                     if ok second then SyntaxError
                     else ApiError (status second) (statusText second)
                                   (json second)
                   | _ => TypeError
                   end /\
  localStorage result.2 !! TOKEN_KEY = None /\
  requests result.2
  = requests w ++ [bearer_request w endpoint options tokens;
                   refresh_request w tokens] /\
  network result.2 = tail rest.
Proof.
  intros Hwindow Hstored Hrefresh Hnet H401 Hfail. cbn zeta.
  run.
  destruct rest as [|[second|] rest'];
    [| destruct Hfail as [Hok|Hjson]; [| destruct (ok second) eqn:Hok] |];
    steps; rewrite <- ?app_assoc, ?lookup_delete_eq; repeat split.
Qed.


Lemma retry_headers (old fresh : string) :
  <["Authorization" := fresh]>
    (<["Content-Type" := "application/json"]>
       (<["Authorization" := old]> (∅ : gmap string string)))
  = <["Content-Type" := "application/json"]>
      (<["Authorization" := fresh]> ∅).
Proof.
  rewrite (insert_insert_ne _ "Authorization" "Content-Type")
    by discriminate.
  rewrite insert_insert_eq. reflexivity.
Qed.

(** X26.  After a 401 and a successful refresh the fresh tokens are
    stored and the request is sent once more, with the fresh access
    token in place of the old one.  What the retry brings decides the
    rest: a response is settled like any other, and when it is again
    not in 200-299 (a second 401 included) an [ApiError] is thrown, no
    further refresh is tried and the fresh tokens stay in the store;
    but when the retry itself fails, the fresh tokens are removed
    again. *)
Theorem retry_after_refresh
    (endpoint : string) (options : RequestInit) (w : World Json)
    (tokens : AuthTokens) (first second : Response Json) (value : Json)
    (rest : list (option (Response Json))) :
  window w = true -> localStorage w !! TOKEN_KEY = Some tokens ->
  nonempty (refresh_token tokens) = true ->
  network w = Some first :: Some second :: rest -> status first = 401%Z ->
  ok second = true -> json second = Some value ->
  let result := apiFetch as_tokens endpoint options true w in
  requests result.2
  = requests w ++ [bearer_request w endpoint options tokens;
                   refresh_request w tokens;
                   bearer_request w endpoint options (as_tokens value)] /\
  network result.2 = tail rest /\
  match rest with
  | Some third :: _ =>
    result.1 = (if ok third then Return third
                else Throw (ApiError (status third) (statusText third)
                                     (json third))) /\
    localStorage result.2 !! TOKEN_KEY = Some (as_tokens value)
  | _ =>
    result.1 = Throw TypeError /\
    localStorage result.2 !! TOKEN_KEY = None
  end.
Proof.
  intros Hwindow Hstored Hrefresh Hnet H401 Hok Hjson. cbn zeta.
  run.
  destruct rest as [|[third|] rest']; [| destruct (ok third) eqn:Hthird |];
    steps;
    rewrite <- ?app_assoc, ?lookup_delete_eq, ?lookup_insert_eq,
      ?retry_headers;
    repeat split.
Qed.

(** X27.  Whatever the server does, one call of [apiFetch] sends at
    least one and at most three requests (the request, the refresh, the
    retry), appends them to those already sent, consumes one outcome
    for each, and changes neither the user nor anything in the store
    but the tokens. *)
Theorem apiFetch_sends_at_most_three_requests
    (endpoint : string) (options : RequestInit) (requiresAuth : bool)
    (w : World Json) :
  let result := apiFetch as_tokens endpoint options requiresAuth w in
  exists new,
    requests result.2 = requests w ++ new /\
    (1 <= length new <= 3)%nat /\
    network result.2 = drop (length new) (network w) /\
    user result.2 = user w /\
    window result.2 = window w /\
    forall key, key <> TOKEN_KEY ->
                localStorage result.2 !! key = localStorage w !! key.
Proof.
  cbn zeta. destruct requiresAuth.
  2:{ unfold apiFetch. rewrite apiFetch_plain.
      exists [plain_request w endpoint options].
      destruct (network w) as [|[r|] rest] eqn:Hnet;
        try destruct (ok r); world; rewrite ?Hnet; cbn [length drop];
        (repeat split; try lia; try reflexivity);
        rewrite ?drop_0; reflexivity. }
  run.
  destruct (window w) eqn:Hwindow;
    [destruct (localStorage w !! TOKEN_KEY) as [tokens|] eqn:Hstored |];
    destruct (network w) as [|[first|] rest] eqn:Hnet;
    steps; branches;
    (eexists; split; [rewrite <- ?app_assoc; reflexivity |]);
    cbn [length drop app]; rewrite ?drop_0;
    (repeat split; try lia; try reflexivity);
    intros key Hkey;
    rewrite ?lookup_delete_ne, ?lookup_insert_ne by congruence; reflexivity.
Qed.


Ltac start :=
  unfold AuthContext.login, AuthContext.logout, AuthContext.setUser,
    getSafeRoutes, getCurrentUser, login, logout;
  run.

(** X28.  The route request carries the access token exactly when
    tokens are stored: its [Authorization] header is the bearer text of
    the stored tokens, and there is none for a visitor who is not
    logged in (or on the server side).  In that case the call is a
    single request, a 401 included, and the store is not touched. *)
Theorem route_request_carries_the_stored_token
    (payload : string) (w : World Json) :
  let result := getSafeRoutes as_tokens payload w in
  let stored := if window w then localStorage w !! TOKEN_KEY else None in
  exists request later,
    requests result.2 = requests w ++ request :: later /\
    url request = API_BASE_URL w +:+ "/api/v1/routes/safe" /\
    init request
    = {| method := Some "POST"; body := PayloadBody payload |} /\
    headers request !! "Authorization" = bearer <$> stored /\
    (stored = None -> later = [] /\ localStorage result.2 = localStorage w).
Proof.
  cbn zeta. start.
  destruct (window w) eqn:Hwindow;
    [destruct (localStorage w !! TOKEN_KEY) as [tokens|] eqn:Hstored |];
    cbn beta iota;
    rewrite ?(bool_decide_eq_true_2 (is_Some (Some _))) by eauto;
    rewrite ?(bool_decide_eq_false_2 (is_Some None))
      by (intros [? ?]; discriminate);
    cbn beta iota;
    destruct (network w) as [|[first|] rest] eqn:Hnet;
    steps'; branches; steps';
    (eexists; eexists; split; [rewrite <- ?app_assoc; reflexivity |]);
    cbn [url init headers];
    (repeat split; try discriminate).
Qed.

(** X29.  [logout] of the auth context cannot fail and always logs
    out: whatever the server answers, and also when the request fails
    or the refresh after a 401 throws, the call returns, the user is
    unset and the tokens are gone from the store. *)
Theorem logout_always_clears_the_session (w : World Json) :
  let result := AuthContext.logout as_tokens w in
  result.1 = Return tt /\
  user result.2 = None /\
  (if window w then localStorage result.2 !! TOKEN_KEY = None
   else localStorage result.2 = localStorage w) /\
  (length (requests w) < length (requests result.2))%nat.
Proof.
  cbn zeta. start.
  destruct (window w) eqn:Hwindow;
    [destruct (localStorage w !! TOKEN_KEY) as [tokens|] eqn:Hstored |];
    destruct (network w) as [|[first|] rest] eqn:Hnet;
    steps'; branches; steps';
    rewrite ?length_app; cbn [length];
    (repeat split; try lia).
Qed.

(** X30.  [login] of the auth context stores the tokens before it asks
    for the user.  When the login request succeeds, the next request
    is the one for the user and carries the fresh access token; if it
    succeeds the user is set.  If it fails, with a status other than
    401 outside 200-299, an unreadable body or a failed request,
    [login] throws and the user stays as it was, but the fresh tokens
    remain in the store. *)
Theorem login_stores_tokens_before_the_user_is_known
    (payload : string) (w : World Json) (first : Response Json)
    (value : Json) (rest : list (option (Response Json))) :
  window w = true -> network w = Some first :: rest ->
  ok first = true -> json first = Some value ->
  let result := AuthContext.login as_tokens payload w in
  let fresh := as_tokens value in
  (exists later,
     requests result.2
     = requests w
       ++ plain_request w "/api/v1/auth/login"
            {| method := Some "POST"; body := PayloadBody payload |}
       :: bearer_request w "/api/v1/auth/me"
            {| method := None; body := NoBody |} fresh
       :: later) /\
  match rest with
  | Some second :: _ =>
    status second <> 401%Z ->
    localStorage result.2 !! TOKEN_KEY = Some fresh /\
    match json second with
    | Some userData =>
      if ok second then result.1 = Return tt /\ user result.2 = Some userData
      else result.1 = Throw (ApiError (status second) (statusText second)
                                      (json second))
           /\ user result.2 = user w
    | None =>
      (exists error, result.1 = Throw error) /\ user result.2 = user w
    end
  | _ =>
    result.1 = Throw TypeError /\ user result.2 = user w /\
    localStorage result.2 !! TOKEN_KEY = Some fresh
  end.
Proof.
  intros Hwindow Hnet Hok Hjson. cbn zeta. start. steps'.
  split.
  - destruct rest as [|[second|] rest']; steps'; branches; steps';
      (eexists; rewrite <- ?app_assoc; reflexivity).
  - destruct rest as [|[second|] rest']; [| intros H401 |]; steps';
      branches; steps'; repeat split; eauto.
Qed.

End Client.

Lemma apiFetch_returns_only_ok_responses_witness :
  ok Scenarios.no_content = true /\
  status Scenarios.no_content <> 401%Z.
Proof.
  apply (apiFetch_returns_only_ok_responses (fun tokens => tokens)
           "/api/v1/users/me/settings" Scenarios.settings_request true
           (Scenarios.logged_in [Some Scenarios.no_content])
           (apiFetch (fun tokens => tokens)
              "/api/v1/users/me/settings" Scenarios.settings_request true
              (Scenarios.logged_in [Some Scenarios.no_content])).2
           Scenarios.no_content).
  vm_compute. reflexivity.
Defined.

Lemma failed_refresh_clears_the_tokens_witness :
  let result :=
    apiFetch (fun tokens => tokens) "/api/v1/users/me/settings"
      Scenarios.settings_request true
      (Scenarios.logged_in
         [Some Scenarios.unauthorized; Some Scenarios.server_error]) in
  result.1 = Throw (ApiError 500 "Internal Server Error" None) /\
  localStorage result.2 !! TOKEN_KEY = None.
Proof.
  destruct (failed_refresh_clears_the_tokens (fun tokens => tokens)
              "/api/v1/users/me/settings" Scenarios.settings_request
              (Scenarios.logged_in
                 [Some Scenarios.unauthorized; Some Scenarios.server_error])
              Scenarios.old_tokens Scenarios.unauthorized
              [Some Scenarios.server_error])
    as (Herror & Hstore & _);
    [reflexivity | reflexivity | reflexivity | reflexivity | reflexivity
     | left; reflexivity |].
  split; [exact Herror | exact Hstore].
Defined.

Lemma retry_after_refresh_witness :
  let result :=
    apiFetch (fun tokens => tokens) "/api/v1/users/me/settings"
      Scenarios.settings_request true
      (Scenarios.logged_in
         [Some Scenarios.unauthorized; Some Scenarios.refreshed;
          Some Scenarios.no_content]) in
  result.1 = Return Scenarios.no_content /\
  localStorage result.2 !! TOKEN_KEY = Some Scenarios.fresh_tokens.
Proof.
  destruct (retry_after_refresh (fun tokens => tokens)
              "/api/v1/users/me/settings" Scenarios.settings_request
              (Scenarios.logged_in
                 [Some Scenarios.unauthorized; Some Scenarios.refreshed;
                  Some Scenarios.no_content])
              Scenarios.old_tokens Scenarios.unauthorized
              Scenarios.refreshed Scenarios.fresh_tokens
              [Some Scenarios.no_content])
    as (_ & _ & Hresult & Hstore);
    [reflexivity | reflexivity | reflexivity | reflexivity | reflexivity
     | reflexivity | reflexivity |].
  split; [exact Hresult | exact Hstore].
Defined.

Lemma login_stores_tokens_before_the_user_is_known_witness :
  let result :=
    AuthContext.login (fun tokens => tokens) "credentials"
      (Scenarios.logged_out
         [Some Scenarios.refreshed; Some Scenarios.server_error]) in
  localStorage result.2 !! TOKEN_KEY = Some Scenarios.fresh_tokens /\
  user result.2 = None.
Proof.
  destruct (login_stores_tokens_before_the_user_is_known
              (fun tokens => tokens) "credentials"
              (Scenarios.logged_out
                 [Some Scenarios.refreshed; Some Scenarios.server_error])
              Scenarios.refreshed Scenarios.fresh_tokens
              [Some Scenarios.server_error])
    as [_ Hrest];
    [reflexivity | reflexivity | reflexivity | reflexivity |].
  destruct Hrest as (Hstore & _ & Huser); [discriminate |].
  split; [exact Hstore | exact Huser].
Defined.

End ApiExtras.
